(** * Switch Transformer routing: [labml_nn/transformers/switch/__init__.py]

    A shallow embedding of [SwitchFeedForward] (construction and the
    forward call) together with the routing properties of the
    specification.

    Modelling conventions.
    - The entries of tensors are exact rationals ([Qc]); their rounding,
      infinities and NaN are not modelled.
    - Line 103, the capacity, is Python float arithmetic.  The body of the
      call takes this arithmetic as a parameter: [forward] has it over
      the rationals, [forward_float] in binary64 as Python evaluates it.
    - A tensor of shape [[n, d]] is the list of its [n] rows; a tensor of
      shape [[seq_len, bs, d_model]] carries its shape next to its rows in
      row-major order, so that [view] only changes the shape.
    - The process-wide random generator of torch is threaded explicitly;
      Python exceptions are values of [exn].
    - The collaborators that are not part of the file ([nn.Linear],
      [nn.Softmax], [FeedForward], [torch.randperm]) are parameters, with
      their shape contracts stated as laws. *)

From Stdlib Require Import QArith Qcanon Qround Lqa.
From Stdlib Require Import PrimFloat SpecFloat FloatOps FloatAxioms.
From Stdlib Require Uint63.
From stdpp Require Import base numbers list.

Local Open Scope Qc_scope.

(** ** Exceptions and the generator monad *)

Inductive exn : Set :=
  | RuntimeError
  | IndexError
  | ZeroDivisionError
  | OverflowError
  | ValueError.

(** The operations of torch's default random generator that the file
    uses. *)
Class TorchRandom := {
  Generator : Type;
  manual_seed : Z → Generator;
  randperm : nat → Generator → list nat * Generator;
}.

(** [torch.randperm(n)] returns a permutation of [0 .. n-1]. *)
Class TorchRandomLaws `{TorchRandom} : Prop := {
  randperm_perm : ∀ n g, (randperm n g).1 ≡ₚ seq 0 n;
}.

(** Tensors of shape [[n]] and [[n, d]]. *)
Abbreviation Tensor1 := (list Qc).
Abbreviation Tensor2 := (list (list Qc)).

#[global] Instance Qc_inhabited : Inhabited Qc := populate 0.

Section Switch.
Context `{TorchRandom}.

(** A computation reads and advances the generator, and returns a value or
    raises. *)
Definition M (A : Type) : Type := Generator → exn + A * Generator.

#[export] Instance M_ret : MRet M := λ A a g, inr (a, g).
#[export] Instance M_bind : MBind M := λ A B f m g,
  match m g with
  | inl e => inl e
  | inr (a, g') => f a g'
  end.

Definition raise {A} (e : exn) : M A := λ _, inl e.
Definition draw {A} (f : Generator → A * Generator) : M A := λ g, inr (f g).
Definition lift_exn {A} (r : exn + A) : M A := λ g,
  match r with
  | inl e => inl e
  | inr a => inr (a, g)
  end.

(** ** Tensors *)

Record Tensor3 := {
  shape : nat * nat * nat;
  rows : Tensor2;
}.

(** The rows agree with the shape. *)
Definition well_shaped (x : Tensor3) : Prop :=
  let '(seq_len, bs, d_model) := shape x in
  length (rows x) = (seq_len * bs)%nat ∧
  Forall (λ r, length r = d_model) (rows x).

Definition Qc_of_nat (n : nat) : Qc := Qc_of_Z (Z.of_nat n).

(** Python's [int(q)]: truncation towards zero. *)
Definition int (q : Qc) : Z := Z.quot (Qnum q) (Z.pos (Qden q)).

(** The largest integer that is not above [q]. *)
Definition floor (q : Qc) : Z := Qfloor q.

(** ** Python's floats

    A Python float is a binary64 number; its arithmetic is that of the
    primitive floats. *)

(** [float(n)] for a size [n], as an operand of a float takes it: [n]
    is rounded to the nearest double, to even on a tie.  The sizes of
    tensors and lists are index-sized integers, below [2 ^ 63]; [len]
    raises [OverflowError] beyond. *)
Definition float_of_size (n : nat) : exn + float :=
  if bool_decide (Z.of_nat n < 2 ^ 63)%Z
  then inr (of_uint63 (Uint63.of_Z (Z.of_nat n)))
  else inl OverflowError.

(** [int(f)] for a float [f]: the integer part of [f], truncated towards
    zero; an infinity and NaN are refused. *)
Definition int_of_float (f : float) : exn + Z :=
  match Prim2SF f with
  | S754_zero _ => inr 0%Z
  | S754_finite s m e =>
      let a := Z.shiftl (Z.pos m) e in
      inr (if s then (- a)%Z else a)
  | S754_infinity _ => inl OverflowError
  | S754_nan => inl ValueError
  end.

(** [int(capacity_factor * len_x / n_switches)] for a float
    [capacity_factor] and the sizes [len_x] and [n_switches]: the product
    and the quotient are each rounded to a double, and a division by zero
    raises.  At line 103 [len_x] is [len(x)], and [n_switches] is the
    length of [indexes_list], the list that line 97 has built. *)
Definition float_capacity (capacity_factor : float) (len_x n_switches : nat)
    : exn + Z :=
  match float_of_size len_x, float_of_size n_switches with
  | inl e, _ => inl e
  | inr _, inl e => inl e
  | inr a, inr b =>
      if is_zero b then inl ZeroDivisionError
      else int_of_float (capacity_factor * a / b)%float
  end.

(** A float that is not negative: a zero, of either sign, a positive
    number, the positive infinity, or NaN, which has no order. *)
Definition sf_nonneg (f : spec_float) : Prop :=
  match f with
  | S754_finite s _ _ | S754_infinity s => s = false
  | _ => True
  end.

(** The same with a sign bit that is not set, as the float of a size. *)
Definition sf_plus (f : spec_float) : Prop :=
  match f with
  | S754_zero s | S754_finite s _ _ | S754_infinity s => s = false
  | S754_nan => True
  end.

Definition sum_Qc (l : list Qc) : Qc := foldr Qcplus 0 l.

(** [x.view(-1, d_model)] on a tensor of shape [[seq_len, bs, d_model]]:
    the unknown dimension cannot be inferred when [d_model] is zero. *)
Definition view_2d (x : Tensor3) : exn + Tensor2 :=
  let '(seq_len, bs, d_model) := shape x in
  if bool_decide (d_model = 0%nat) then inl RuntimeError else inr (rows x).

(** [t.view(seq_len, bs, d_model)] on a tensor of shape
    [[seq_len * bs, d_model]]. *)
Definition view_3d (t : Tensor2) (shp : nat * nat * nat) : Tensor3 :=
  {| shape := shp; rows := t |}.

(** [x.new_zeros(x.shape)] for [x] of shape [[n, d]]. *)
Definition new_zeros (n d : nat) : Tensor2 := replicate n (replicate d 0).

(** The maximum of a row and the index where it is first attained: [v] is
    the best value so far, found at index [i], and [k] is the index of the
    head of the rest. *)
Fixpoint row_max (v : Qc) (i k : nat) (rest : list Qc) : Qc * nat :=
  match rest with
  | [] => (v, i)
  | y :: rest' =>
      if bool_decide (v < y) then row_max y k (S k) rest'
      else row_max v i (S k) rest'
  end.

(** [torch.max(t, dim=-1)] on a tensor of shape [[n, width]]: a reduction
    over a dimension of size zero raises. *)
Definition torch_max (width : nat) (t : Tensor2) : exn + Tensor1 * list nat :=
  if bool_decide (width = 0%nat) then inl IndexError
  else
    let r := (λ row, match row with
                     | [] => (0, 0%nat)
                     | v :: rest => row_max v 0 1 rest
                     end) <$> t in
    inr (fst <$> r, snd <$> r).

(** [torch.eq(routes, i)] *)
Definition torch_eq (routes : list nat) (i : nat) : list bool :=
  (λ r, bool_decide (r = i)) <$> routes.

(** [mask.nonzero(as_tuple=True)[0]]: the positions that hold [True], in
    increasing order. *)
Definition nonzero (mask : list bool) : list nat :=
  filter (λ t, mask !! t = Some true) (seq 0 (length mask)).

(** [t[idx]] for a tensor of indices [idx]. *)
Definition index_select {A} `{Inhabited A} (t : list A) (idx : list nat) : list A :=
  (λ j, t !!! j) <$> idx.

(** [t[idx, :] = src] *)
Definition index_put (t : Tensor2) (idx : list nat) (src : Tensor2) : Tensor2 :=
  foldl (λ acc p, <[p.1 := p.2]> acc) t (zip idx src).

(** The position a slice bound [c] denotes in a sequence of length [n]:
    negative bounds count from the end, and all bounds are clamped. *)
Definition slice_bound (c : Z) (n : nat) : nat :=
  if bool_decide (c < 0)%Z then Z.to_nat (Z.of_nat n + c)
  else Nat.min (Z.to_nat c) n.

(** [l[c:]] and [l[:c]] *)
Definition slice_from {A} (l : list A) (c : Z) : list A :=
  drop (slice_bound c (length l)) l.
Definition slice_to {A} (l : list A) (c : Z) : list A :=
  take (slice_bound c (length l)) l.

(** [t.sum(0)] on a tensor of shape [[n, width]]. *)
Definition sum_0 (width : nat) (t : Tensor2) : Tensor1 :=
  foldr (zip_with Qcplus) (replicate width 0) t.

(** ** Modules *)

(** A position-wise feed-forward network, applied to a tensor of shape
    [[k, d_model]]; its dropout layer draws from the generator. *)
Definition FeedForward : Type := Tensor2 → Generator → Tensor2 * Generator.

(** [nn.Linear], as the map it applies to each row. *)
Definition Linear : Type := list Qc → list Qc.

(** [nn.Softmax(dim=-1)], as the map it applies to each row. *)
Definition Softmax : Type := list Qc → list Qc.

Record SwitchFeedForward := {
  capacity_factor : Qc;
  is_scale_prob : bool;
  n_switches : nat;
  drop_tokens : bool;
  experts : list FeedForward;
  switch : Linear;
  softmax : Softmax;
}.

(** The constructors of the collaborating modules: [FeedForward(d_model,
    d_ff, dropout)], [nn.Linear(in_features, out_features)] and
    [nn.Softmax(dim=-1)].  The first two initialise their weights from the
    generator and may raise. *)
Class Collaborators := {
  new_FeedForward : nat → nat → Qc → M FeedForward;
  nn_Linear : nat → Z → M Linear;
  nn_Softmax : Softmax;
}.

(** What is known of these constructors: [nn.Linear] allocates a weight
    of shape [[out_features, in_features]], which torch refuses for a
    negative size, and maps rows of [in_features] entries to rows of
    [out_features] entries; a feed-forward module keeps the shape of its
    input; the softmax keeps the width of a row. *)
Class CollaboratorLaws `{Collaborators} : Prop := {
  nn_Linear_negative : ∀ d n g, (n < 0)%Z → ∃ e, nn_Linear d n g = inl e;
  nn_Linear_shape : ∀ d n g lin g',
    nn_Linear d n g = inr (lin, g') →
    ∀ row, length row = d → length (lin row) = Z.to_nat n;
  new_FeedForward_shape : ∀ d d_ff p g ff g',
    new_FeedForward d d_ff p g = inr (ff, g') →
    ∀ t g, Forall (λ r, length r = d) t →
      length (ff t g).1 = length t ∧ Forall (λ r, length r = d) (ff t g).1;
  nn_Softmax_length : ∀ row, length (nn_Softmax row) = length row;
}.

(** [range(n)] *)
Definition range (n : Z) : list nat := seq 0 (Z.to_nat n).

(** [SwitchFeedForward.__init__].  [nn.Linear] is called with [n_experts]
    as it is given; an object is only ever constructed when that call
    returns, so [n_switches] is stored as a natural number. *)
Definition __init__ `{Collaborators}
    (capacity_factor : Qc) (drop_tokens is_scale_prob : bool)
    (n_experts : Z) (d_model d_ff : nat) (dropout : Qc) : M SwitchFeedForward :=
  experts ← mapM (λ _, new_FeedForward d_model d_ff dropout) (range n_experts);
  switch ← nn_Linear d_model n_experts;
  mret {| capacity_factor := capacity_factor;
          is_scale_prob := is_scale_prob;
          n_switches := Z.to_nat n_experts;
          drop_tokens := drop_tokens;
          experts := experts;
          switch := switch;
          softmax := nn_Softmax |}.

(** [x * factor.view(-1, 1)] *)
Definition scale_rows (x : Tensor2) (factor : Tensor1) : Tensor2 :=
  zip_with (λ row f, (λ v, v * f) <$> row) x factor.

(** The loop that drops tokens, over the experts [todo]: the group of
    expert [i] is left alone when it fits, and is otherwise shuffled and
    cut at [capacity], the rest being appended to [dropped]. *)
Fixpoint drop_loop (capacity : Z) (todo : list nat)
    (indexes_list dropped : list (list nat)) : M (list (list nat) * list (list nat)) :=
  match todo with
  | [] => mret (indexes_list, dropped)
  | i :: todo' =>
      let idx := indexes_list !!! i in
      if bool_decide (Z.of_nat (length idx) ≤ capacity)%Z then
        drop_loop capacity todo' indexes_list dropped
      else
        perm ← draw (randperm (length idx));
        let idx := index_select idx perm in
        drop_loop capacity todo'
          (<[i := slice_to idx capacity]> indexes_list)
          (dropped ++ [slice_from idx capacity])
  end.

(** The values of the local variables of [__call__] when it returns. *)
Record Locals := {
  route_prob : Tensor2;
  route_prob_max : Tensor1;
  routes : list nat;
  factor : Tensor1;
  x_scaled : Tensor2;
  indexes_routed : list (list nat);
  capacity : Z;
  counts : Tensor1;
  indexes_list : list (list nat);
  dropped : list nat;
  route_outputs : list Tensor2;
  final_output : Tensor3;
}.

(** The body of [SwitchFeedForward.__call__]; [capacity_of] is the
    arithmetic of line 103, [int(self.capacity_factor * len(x) /
    self.n_switches)], as a function of [len(x)]. *)
Definition forward_body (capacity_of : nat → M Z)
    (self : SwitchFeedForward) (x3 : Tensor3) : M Locals :=
  let '(seq_len, bs, d_model) := shape x3 in
  x ← lift_exn (view_2d x3);
  let route_prob := (λ row, softmax self (switch self row)) <$> x in
  '(route_prob_max, routes) ← lift_exn (torch_max (n_switches self) route_prob);
  let factor :=
    if is_scale_prob self then route_prob_max
    else (λ p, p / p) <$> route_prob_max in
  let x := scale_rows x factor in
  let indexes_routed :=
    (λ i, nonzero (torch_eq routes i)) <$> range (Z.of_nat (n_switches self)) in
  let final_output := new_zeros (length x) d_model in
  capacity ← capacity_of (length x);
  let counts :=
    (λ i, Qc_of_nat (length (indexes_routed !!! i)))
      <$> range (Z.of_nat (n_switches self)) in
  '(indexes_list, dropped) ←
    (if drop_tokens self then
       drop_loop capacity (range (Z.of_nat (n_switches self))) indexes_routed []
     else mret (indexes_routed, []));
  route_outputs ←
    mapM (λ i, match (experts self !! i : option FeedForward) with
               | None => raise IndexError
               | Some expert => draw (expert (index_select x (indexes_list !!! i)))
               end)
         (range (Z.of_nat (n_switches self)));
  let final_output :=
    foldl (λ out i, index_put out (indexes_list !!! i) (route_outputs !!! i))
          final_output (range (Z.of_nat (n_switches self))) in
  let '(final_output, dropped) :=
    match dropped with
    | [] => (final_output, [])
    | _ :: _ =>
        let dropped := concat dropped in
        (index_put final_output dropped (index_select x dropped), dropped)
    end in
  mret {| route_prob := route_prob;
          route_prob_max := route_prob_max;
          routes := routes;
          factor := factor;
          x_scaled := x;
          indexes_routed := indexes_routed;
          capacity := capacity;
          counts := counts;
          indexes_list := indexes_list;
          dropped := dropped;
          route_outputs := route_outputs;
          final_output := view_3d final_output (seq_len, bs, d_model) |}.

(** Line 103 over the rationals: [capacity_factor] is a rational number
    and neither the product nor the quotient is rounded. *)
Definition capacity_exact (self : SwitchFeedForward) (len_x : nat) : M Z :=
  if bool_decide (n_switches self = 0%nat) then raise ZeroDivisionError
  else mret (int (capacity_factor self * Qc_of_nat len_x
                  / Qc_of_nat (n_switches self))).

(** The body with line 103 over the rationals. *)
Definition forward (self : SwitchFeedForward) (x3 : Tensor3) : M Locals :=
  forward_body (capacity_exact self) self x3.

(** The body with line 103 as Python evaluates it, in binary64
    arithmetic, for a router whose capacity factor is the float
    [capacity_factor]; the rational field [capacity_factor self] is not
    read. *)
Definition forward_float (capacity_factor : float)
    (self : SwitchFeedForward) (x3 : Tensor3) : M Locals :=
  forward_body
    (λ len_x, lift_exn (float_capacity capacity_factor len_x (n_switches self)))
    self x3.

(** What [__call__] returns: [final_output, counts, route_prob.sum(0),
    len(dropped)]. *)
Definition returned (self : SwitchFeedForward) (l : Locals)
    : Tensor3 * Tensor1 * Tensor1 * nat :=
  (final_output l, counts l, sum_0 (n_switches self) (route_prob l),
   length (dropped l)).

Definition __call__ (self : SwitchFeedForward) (x : Tensor3)
    : M (Tensor3 * Tensor1 * Tensor1 * nat) :=
  l ← forward self x; mret (returned self l).

Definition call_float (capacity_factor : float)
    (self : SwitchFeedForward) (x : Tensor3)
    : M (Tensor3 * Tensor1 * Tensor1 * nat) :=
  l ← forward_float capacity_factor self x; mret (returned self l).

(** ** Vocabulary of the specification *)

(** The loop [final_output[indexes_list[i], :] = route_outputs[i]] over the
    first [m] experts. *)
Definition assign (final_output : Tensor2) (indexes_list : list (list nat))
    (route_outputs : list Tensor2) (m : nat) : Tensor2 :=
  foldl (λ out i, index_put out (indexes_list !!! i) (route_outputs !!! i))
        final_output (seq 0 m).

(** The contract of a feed-forward module on [d_model] features: a tensor
    of shape [[k, d_model]] is mapped to one of the same shape. *)
Definition shape_preserving (d_model : nat) (ff : FeedForward) : Prop :=
  ∀ t g, Forall (λ r, length r = d_model) t →
    length (ff t g).1 = length t ∧
    Forall (λ r, length r = d_model) (ff t g).1.

(** What construction establishes, for tokens of [d_model] features: one
    expert per switch, a routing layer from [d_model] to [n_switches]
    features, and a softmax that keeps the width of a row. *)
Record well_formed (d_model : nat) (self : SwitchFeedForward) : Prop := {
  wf_experts_length : length (experts self) = n_switches self;
  wf_experts_shape : Forall (shape_preserving d_model) (experts self);
  wf_switch : ∀ row, length row = d_model →
    length (switch self row) = n_switches self;
  wf_softmax : ∀ row, length (softmax self row) = length row;
}.

(** The softmax produces a distribution: the entries of a row sum to one. *)
Definition normalised (f : Softmax) : Prop :=
  ∀ row, row ≠ [] → sum_Qc (f row) = 1.

(** What the loop that drops tokens does to the group [idx] of one expert:
    [kept] is what the expert processes, [dr] what is dropped. *)
Definition cut (capacity : Z) (idx kept dr : list nat) : Prop :=
  if bool_decide (Z.of_nat (length idx) ≤ capacity)%Z then
    kept = idx ∧ dr = []
  else
    ∃ perm, perm ≡ₚ seq 0 (length idx) ∧
      kept = slice_to (index_select idx perm) capacity ∧
      dr = slice_from (index_select idx perm) capacity.

(** The same, with dropping switched on or off. *)
Definition cut_if (drop_tokens : bool) (capacity : Z)
    (idx : list nat) (p : list nat * list nat) : Prop :=
  if drop_tokens then cut capacity idx p.1 p.2 else p = (idx, []).

(** [out] is what expert [i] returns on the rows [idx] of [x], from some
    state of the generator. *)
Definition evaluated (self : SwitchFeedForward) (x : Tensor2)
    (idx : list nat) (i : nat) (out : Tensor2) : Prop :=
  ∃ expert g, experts self !! i = Some expert ∧
    out = (expert (index_select x idx) g).1.

(** How the local variables of a call that returned depend on the input
    and on each other, when line 103 gave the capacity [c]. *)
Record body_post (c : Z) (self : SwitchFeedForward) (x : Tensor3) (l : Locals) : Prop := {
  fp_route_prob :
    route_prob l = (λ row, softmax self (switch self row)) <$> rows x;
  fp_max :
    torch_max (n_switches self) (route_prob l) = inr (route_prob_max l, routes l);
  fp_max_length : length (route_prob_max l) = length (rows x);
  fp_routes_length : length (routes l) = length (rows x);
  fp_routes_lt : Forall (λ r, (r < n_switches self)%nat) (routes l);
  fp_factor :
    factor l = if is_scale_prob self then route_prob_max l
               else (λ p, p / p) <$> route_prob_max l;
  fp_x_scaled : x_scaled l = scale_rows (rows x) (factor l);
  fp_routed :
    indexes_routed l
    = (λ i, nonzero (torch_eq (routes l) i)) <$> seq 0 (n_switches self);
  fp_capacity : capacity l = c;
  fp_counts :
    counts l = (λ idx, Qc_of_nat (length idx)) <$> indexes_routed l;
  fp_cut : ∃ kd,
    indexes_list l = kd.*1 ∧ dropped l = concat kd.*2 ∧
    Forall2 (cut_if (drop_tokens self) (capacity l)) (indexes_routed l) kd;
  fp_outputs : ∀ i idx,
    indexes_list l !! i = Some idx →
    ∃ out, route_outputs l !! i = Some out ∧
           evaluated self (x_scaled l) idx i out;
  fp_shape : shape (final_output l) = shape x;
  fp_well_shaped : well_shaped (final_output l);
  fp_processed : ∀ i idx k t,
    indexes_list l !! i = Some idx → idx !! k = Some t →
    ∃ out row, route_outputs l !! i = Some out ∧ out !! k = Some row ∧
               rows (final_output l) !! t = Some row;
  fp_dropped : ∀ t,
    t ∈ dropped l → rows (final_output l) !! t = x_scaled l !! t;
}.

(** The same with line 103 over the rationals. *)
Definition forward_post (self : SwitchFeedForward) (x : Tensor3) (l : Locals) : Prop :=
  body_post (int (capacity_factor self * Qc_of_nat (length (rows x))
                  / Qc_of_nat (n_switches self))) self x l.

(** The computation [m] raises when it is run from [g]. *)
Definition raises {A} (m : M A) (g : Generator) : Prop := ∃ e, m g = inl e.

(** Token [t] is assigned to expert [i]: [i] is its route, and the
    probability of [i] is the confidence of [t], the largest entry of its
    routing distribution. *)
Definition assigned (l : Locals) (t i : nat) : Prop :=
  routes l !! t = Some i ∧
  ∃ row p, route_prob l !! t = Some row ∧ row !! i = Some p ∧
           route_prob_max l !! t = Some p ∧ Forall (λ v, v ≤ p) row.

(** Token [t] is processed by expert [i]: it is the [k]-th token of the
    group of [i], for one [k] only, and its output row is the [k]-th row
    that expert [i] returns on the scaled rows of its group. *)
Definition processed_by (self : SwitchFeedForward) (l : Locals) (t i : nat) : Prop :=
  ∃ idx k out row,
    indexes_list l !! i = Some idx ∧ idx !! k = Some t ∧
    (∀ k', idx !! k' = Some t → k' = k) ∧
    route_outputs l !! i = Some out ∧
    evaluated self (x_scaled l) idx i out ∧
    out !! k = Some row ∧
    rows (final_output l) !! t = Some row.

(** Token [t] is dropped: its output row is its scaled input row. *)
Definition passed_through (l : Locals) (t : nat) : Prop :=
  t ∈ dropped l ∧ rows (final_output l) !! t = x_scaled l !! t.

(** Token [t] is in the group of no expert. *)
Definition in_no_group (l : Locals) (t : nat) : Prop :=
  ∀ j idx, indexes_list l !! j = Some idx → t ∉ idx.

End Switch.

(** ** Further vocabulary *)

Section Variants.
Context `{TorchRandom}.

(** The same router with another setting of [drop_tokens]. *)
Definition with_drop_tokens (b : bool) (self : SwitchFeedForward) : SwitchFeedForward :=
  {| capacity_factor := capacity_factor self;
     is_scale_prob := is_scale_prob self;
     n_switches := n_switches self;
     drop_tokens := b;
     experts := experts self;
     switch := switch self;
     softmax := softmax self |}.

(** A feed-forward module that applies [f] to every row and leaves the
    generator alone: a position-wise network without dropout. *)
Definition position_wise (ff : FeedForward) (f : list Qc → list Qc) : Prop :=
  ∀ t g, ff t g = (f <$> t, g).

End Variants.

(** ** The transformer layer and the stack of layers *)

Section Collaborating.
Context `{TorchRandom}.

(** [x + y] for tensors of the same shape. *)
Definition add (x y : Tensor3) : Tensor3 :=
  {| shape := shape x; rows := zip_with (zip_with Qcplus) (rows x) (rows y) |}.

(** [torch.stack(ts)] for tensors of shape [[n]]: the list must not be
    empty and the tensors must have the same size. *)
Definition torch_stack (ts : list Tensor1) : exn + Tensor2 :=
  match ts with
  | [] => inl RuntimeError
  | t :: ts' =>
      if forallb (λ u, bool_decide (length u = length t)) ts' then inr ts
      else inl RuntimeError
  end.

(** [nn.LayerNorm], [nn.Dropout] and [MultiHeadAttention] (called with a
    query, a key, a value and a mask), as the maps they apply; dropout and
    attention draw from the generator. *)
Definition LayerNorm : Type := Tensor3 → Tensor3.
Definition Dropout : Type := Tensor3 → Generator → Tensor3 * Generator.
Definition MultiHeadAttention : Type :=
  Tensor3 → Tensor3 → Tensor3 → Tensor3 → Generator → Tensor3 * Generator.

(** The contract of these modules: the result is well shaped, with the
    shape of the input (of the query, for attention). *)
Definition keeps_shape (f : LayerNorm) : Prop :=
  ∀ x, well_shaped x → well_shaped (f x) ∧ shape (f x) = shape x.
Definition draws_keeping_shape (f : Dropout) : Prop :=
  ∀ x g, well_shaped x → well_shaped (f x g).1 ∧ shape (f x g).1 = shape x.
Definition attends_keeping_shape (f : MultiHeadAttention) : Prop :=
  ∀ q k v mask g, well_shaped q →
    well_shaped (f q k v mask g).1 ∧ shape (f q k v mask g).1 = shape q.

End Collaborating.

Module SwitchTransformerLayer.
Section Defs.
Context `{TorchRandom}.

Record t := {
  size : nat;
  attn : MultiHeadAttention;
  feed_forward : SwitchFeedForward;
  dropout : Dropout;
  norm_self_attn : LayerNorm;
  norm_ff : LayerNorm;
}.

(** [SwitchTransformerLayer.__call__] *)
Definition __call__ (self : t) (x mask : Tensor3)
    : M (Tensor3 * Tensor1 * Tensor1 * nat) :=
  let z := norm_self_attn self x in
  self_attn ← draw (attn self z z z mask);
  d ← draw (dropout self self_attn);
  let x := add x d in
  let z := norm_ff self x in
  '(ff, counts, route_prob, n_dropped) ← __call__ (feed_forward self) z;
  d ← draw (dropout self ff);
  let x := add x d in
  mret (x, counts, route_prob, n_dropped).

(** A layer whose router is well formed and whose other modules keep the
    shape of their input. *)
Record ok (d_model : nat) (self : t) : Prop := {
  ok_feed_forward : well_formed d_model (feed_forward self);
  ok_attn : attends_keeping_shape (attn self);
  ok_dropout : draws_keeping_shape (dropout self);
  ok_norm_self_attn : keeps_shape (norm_self_attn self);
  ok_norm_ff : keeps_shape (norm_ff self);
}.

End Defs.
End SwitchTransformerLayer.

Module SwitchTransformer.
Section Defs.
Context `{TorchRandom}.

Record t := {
  layers : list SwitchTransformerLayer.t;
  norm : LayerNorm;
}.

(** The loop over the layers of [SwitchTransformer.__call__], with the
    lists it appends to. *)
Fixpoint run_layers (todo : list SwitchTransformerLayer.t) (x mask : Tensor3)
    (counts route_prob : list Tensor1) (n_dropped : list nat)
    : M (Tensor3 * list Tensor1 * list Tensor1 * list nat) :=
  match todo with
  | [] => mret (x, counts, route_prob, n_dropped)
  | layer :: todo' =>
      '(x, f, p, n_d) ← SwitchTransformerLayer.__call__ layer x mask;
      run_layers todo' x mask (counts ++ [f]) (route_prob ++ [p]) (n_dropped ++ [n_d])
  end.

(** [SwitchTransformer.__call__] *)
Definition __call__ (self : t) (x mask : Tensor3)
    : M (Tensor3 * Tensor2 * Tensor2 * list nat) :=
  '(x, counts, route_prob, n_dropped) ← run_layers (layers self) x mask [] [] [];
  let out := norm self x in
  counts ← lift_exn (torch_stack counts);
  route_prob ← lift_exn (torch_stack route_prob);
  mret (out, counts, route_prob, n_dropped).

End Defs.
End SwitchTransformer.

(** ** A concrete generator, router and batch

    These instances make the model executable; the examples and the
    concrete statements below run on them. *)

(** A generator whose state is a counter; [randperm] rotates [0 .. n-1] by
    the counter. *)
#[local] Instance rotating : TorchRandom := {|
  Generator := nat;
  manual_seed := Z.to_nat;
  randperm := λ n g,
    (drop (g `mod` n) (seq 0 n) ++ take (g `mod` n) (seq 0 n), S g);
|}.

(** A rational stand-in for the softmax: the weight [1 + max(v, 0)] takes
    the place of the exponential, and the weights are normalised. *)
Definition toy_softmax : list Qc → list Qc := λ row,
  let w := (λ v, if bool_decide (0 < v) then v + 1 else 1) <$> row in
  (λ v, v / sum_Qc w) <$> w.

(** A routing layer to [n] experts whose weight matrix has ones on the
    diagonal and zeros elsewhere, and no bias: it copies the first [n]
    features, and pads with zeros. *)
Definition toy_linear (n : nat) : list Qc → list Qc := λ row,
  take n (row ++ replicate n 0).

(** Two experts on two features: the first doubles its input, the second
    negates it; no dropout. *)
Definition toy_experts : list (@FeedForward rotating) :=
  [ λ (t : Tensor2) g, ((λ row : Tensor1, Qcmult 2 <$> row) <$> t, g);
    λ (t : Tensor2) g, ((λ row : Tensor1, Qcopp <$> row) <$> t, g) ].

Definition toy (capacity_factor : Qc) (drop_tokens is_scale_prob : bool)
    : @SwitchFeedForward rotating :=
  {| capacity_factor := capacity_factor;
     is_scale_prob := is_scale_prob;
     n_switches := 2;
     drop_tokens := drop_tokens;
     experts := toy_experts;
     switch := toy_linear 2;
     softmax := toy_softmax |}.

(** Constructors that build this router: the experts alternate with the
    state of the generator, and [nn.Linear] refuses a negative size. *)
#[local] Instance toy_collaborators : @Collaborators rotating := {|
  new_FeedForward := λ _ _ _ g,
    inr (if Nat.even g
         then λ (t : Tensor2) g, ((λ row : Tensor1, Qcmult 2 <$> row) <$> t, g)
         else λ (t : Tensor2) g, ((λ row : Tensor1, Qcopp <$> row) <$> t, g),
         S g);
  nn_Linear := λ _ n g,
    if bool_decide (n < 0)%Z then inl RuntimeError
    else inr (toy_linear (Z.to_nat n), S g);
  nn_Softmax := toy_softmax;
|}.

(** A router without experts, as [__init__] builds it for [n_experts = 0]. *)
Definition toy_without_experts : @SwitchFeedForward rotating :=
  {| capacity_factor := 1;
     is_scale_prob := true;
     n_switches := 0;
     drop_tokens := true;
     experts := [];
     switch := toy_linear 0;
     softmax := toy_softmax |}.

(** A layer around a router: attention returns its query, dropout and
    the normalisations change nothing, and dropout advances the
    generator. *)
Definition toy_layer (router : @SwitchFeedForward rotating)
    : @SwitchTransformerLayer.t rotating :=
  {| SwitchTransformerLayer.size := 2;
     SwitchTransformerLayer.attn := λ q _ _ _ g, (q, g);
     SwitchTransformerLayer.feed_forward := router;
     SwitchTransformerLayer.dropout := λ x g, (x, S g);
     SwitchTransformerLayer.norm_self_attn := λ x, x;
     SwitchTransformerLayer.norm_ff := λ x, x |}.

(** A stack of [n_layers] copies of this layer. *)
Definition toy_stack (router : @SwitchFeedForward rotating) (n_layers : nat)
    : @SwitchTransformer.t rotating :=
  {| SwitchTransformer.layers := replicate n_layers (toy_layer router);
     SwitchTransformer.norm := λ x, x |}.

(** What the two experts of the concrete router apply to a row. *)
Definition toy_maps (i : nat) : list Qc → list Qc :=
  match i with
  | 0%nat => λ row, Qcmult 2 <$> row
  | _ => λ row, Qcopp <$> row
  end.

(** Four tokens (sequence length 2, batch size 2); the first, second and
    fourth go to expert 0, the third to expert 1. *)
Definition batch4 : Tensor3 :=
  {| shape := (2, 2, 2)%nat;
     rows := [ [Qc_of_Z 3; 0]; [Qc_of_Z 2; Qc_of_Z 1]; [0; Qc_of_Z 1];
               [Qc_of_Z 1; 0] ] |}.

(** One token. *)
Definition batch1 : Tensor3 :=
  {| shape := (1, 1, 2)%nat; rows := [ [Qc_of_Z 3; 0] ] |}.

(** No token. *)
Definition batch0 (bs d_model : nat) : Tensor3 :=
  {| shape := (0, bs, d_model)%nat; rows := [] |}.

(** [n] tokens, all as the first token of [batch4]: they go to expert 0. *)
Definition batch_of (n : nat) : Tensor3 :=
  {| shape := (n, 1, 2)%nat; rows := replicate n [Qc_of_Z 3; 0] |}.

(** The float that Python reads the literal [1.4] as: the double nearest
    to 7/5, which is a little below it. *)
Definition float_1_4 : float := 0x1.6666666666666p+0%float.

(** * Properties *)

(** ** Lists, slices and index tensors *)

Lemma range_of_nat (n : nat) : range (Z.of_nat n) = seq 0 n.
Proof. unfold range. by rewrite Nat2Z.id. Qed.

Lemma row_max_index (rest : list Qc) (v : Qc) (i k : nat) :
  (i < k)%nat → ((row_max v i k rest).2 < k + length rest)%nat.
Proof.
  revert v i k. induction rest as [|y rest IH]; intros v i k Hik; simpl.
  - lia.
  - case_bool_decide.
    + specialize (IH y k (S k)). lia.
    + specialize (IH v i (S k)). lia.
Qed.

(** On a tensor of non-zero width [torch_max] returns, for every row, its
    maximum and a column index. *)
Lemma torch_max_spec (width : nat) (t : Tensor2) :
  (0 < width)%nat →
  Forall (λ row, length row = width) t →
  ∃ vals idxs,
    torch_max width t = inr (vals, idxs) ∧
    length vals = length t ∧ length idxs = length t ∧
    Forall (λ i, (i < width)%nat) idxs.
Proof.
  intros Hw Ht. unfold torch_max.
  rewrite bool_decide_eq_false_2 by lia.
  eexists _, _. split; [done|].
  rewrite !length_fmap. split_and!; [done..|].
  rewrite <- list_fmap_compose. apply Forall_fmap.
  eapply Forall_impl; [exact Ht|]. intros [|v rest] Hrow; simpl in *.
  - lia.
  - pose proof (row_max_index rest v 0 1). lia.
Qed.

Lemma elem_of_nonzero_eq (routes : list nat) (i t : nat) :
  t ∈ nonzero (torch_eq routes i) ↔ routes !! t = Some i.
Proof.
  unfold nonzero, torch_eq.
  rewrite list_elem_of_filter, elem_of_seq, list_lookup_fmap, length_fmap.
  split.
  - intros [Hm _]. destruct (routes !! t) as [r|]; simplify_eq/=.
    by case_bool_decide; simplify_eq.
  - intros Hr. rewrite Hr. simpl. rewrite bool_decide_eq_true_2 by done.
    apply lookup_lt_Some in Hr. split; [done|lia].
Qed.

Lemma NoDup_nonzero (mask : list bool) : NoDup (nonzero mask).
Proof. apply NoDup_filter, NoDup_seq. Qed.

Lemma elem_of_concat_routed (routes : list nat) (n t : nat) :
  t ∈ concat ((λ i, nonzero (torch_eq routes i)) <$> seq 0 n)
  ↔ ∃ i, (i < n)%nat ∧ routes !! t = Some i.
Proof.
  rewrite list_elem_of_In, in_concat. split.
  - intros (l & Hl & Ht).
    apply list_elem_of_In, list_elem_of_fmap in Hl as (i & -> & Hi).
    apply list_elem_of_In, elem_of_nonzero_eq in Ht.
    apply elem_of_seq in Hi. exists i. split; [lia|done].
  - intros (i & Hi & Ht). eexists. split.
    + apply list_elem_of_In, list_elem_of_fmap. exists i. split; [done|].
      apply elem_of_seq. lia.
    + by apply list_elem_of_In, elem_of_nonzero_eq.
Qed.

Lemma NoDup_concat_routed (routes : list nat) (n : nat) :
  NoDup (concat ((λ i, nonzero (torch_eq routes i)) <$> seq 0 n)).
Proof.
  induction n as [|n IH]; [constructor|].
  rewrite seq_S, fmap_app, concat_app. simpl. rewrite app_nil_r.
  apply NoDup_app. split_and!; [done| |apply NoDup_nonzero].
  intros t Ht Ht'. apply elem_of_nonzero_eq in Ht'.
  apply elem_of_concat_routed in Ht as (i & Hi & Ht). simplify_eq. lia.
Qed.

(** When every route is below [n], the groups of token indices of the
    experts partition the tokens. *)
Lemma concat_routed_all (routes : list nat) (n : nat) :
  Forall (λ r, (r < n)%nat) routes →
  concat ((λ i, nonzero (torch_eq routes i)) <$> seq 0 n)
  ≡ₚ seq 0 (length routes).
Proof.
  intros Hr. apply NoDup_Permutation.
  - apply NoDup_concat_routed.
  - apply NoDup_seq.
  - intros t. rewrite elem_of_concat_routed, elem_of_seq. split.
    + intros (i & _ & Ht). apply lookup_lt_Some in Ht. lia.
    + intros [_ Ht]. simpl in Ht.
      destruct (lookup_lt_is_Some_2 routes t Ht) as [r Hrt].
      exists r. split; [|done].
      rewrite Forall_lookup in Hr. by eapply Hr.
Qed.

Lemma index_select_seq {A} `{Inhabited A} (l : list A) :
  index_select l (seq 0 (length l)) = l.
Proof.
  unfold index_select. apply list_eq. intros k.
  rewrite list_lookup_fmap.
  destruct (decide (k < length l)%nat) as [Hk|Hk].
  - rewrite lookup_seq_lt by done. simpl.
    destruct (lookup_lt_is_Some_2 l k Hk) as [a Ha].
    by rewrite (list_lookup_total_correct _ _ _ Ha).
  - rewrite lookup_seq_ge by lia. simpl.
    symmetry. apply lookup_ge_None. lia.
Qed.

(** Indexing a tensor with a permutation of its positions permutes it. *)
Lemma index_select_perm {A} `{Inhabited A} (l : list A) (perm : list nat) :
  perm ≡ₚ seq 0 (length l) → index_select l perm ≡ₚ l.
Proof.
  intros Hp. rewrite <- (index_select_seq l) at 2.
  unfold index_select. by rewrite Hp.
Qed.

Lemma length_index_select {A} `{Inhabited A} (l : list A) (idx : list nat) :
  length (index_select l idx) = length idx.
Proof. apply length_fmap. Qed.

Lemma slice_to_from {A} (l : list A) (c : Z) :
  slice_to l c ++ slice_from l c = l.
Proof. apply take_drop. Qed.

Lemma length_slice_to {A} (l : list A) (c : Z) :
  (0 ≤ c)%Z → length (slice_to l c) = Nat.min (Z.to_nat c) (length l).
Proof.
  intros Hc. unfold slice_to, slice_bound.
  rewrite bool_decide_eq_false_2 by lia. rewrite length_take. lia.
Qed.

Lemma length_slice_from {A} (l : list A) (c : Z) :
  (0 ≤ c)%Z → length (slice_from l c) = (length l - Z.to_nat c)%nat.
Proof.
  intros Hc. unfold slice_from, slice_bound.
  rewrite bool_decide_eq_false_2 by lia. rewrite length_drop. lia.
Qed.

Lemma insert_middle {A} (l1 l2 : list A) (x y : A) :
  <[length l1:=x]> (l1 ++ y :: l2) = l1 ++ x :: l2.
Proof.
  rewrite <- (Nat.add_0_r (length l1)) at 1. by rewrite insert_app_r.
Qed.

Lemma index_put_cons (t : Tensor2) (i : nat) (idx : list nat) (r : list Qc) (src : Tensor2) :
  index_put t (i :: idx) (r :: src) = index_put (<[i:=r]> t) idx src.
Proof. done. Qed.

Lemma length_index_put (t : Tensor2) (idx : list nat) (src : Tensor2) :
  length (index_put t idx src) = length t.
Proof.
  revert t src. induction idx as [|i idx IH]; intros t [|r src]; try done.
  by rewrite index_put_cons, IH, length_insert.
Qed.

(** A row that is not indexed keeps its value. *)
Lemma index_put_lookup_other (t : Tensor2) (idx : list nat) (src : Tensor2) (j : nat) :
  j ∉ idx → index_put t idx src !! j = t !! j.
Proof.
  revert t src. induction idx as [|i idx IH]; intros t [|r src] Hj; try done.
  rewrite not_elem_of_cons in Hj. destruct Hj as [Hne Hj].
  rewrite index_put_cons, IH by done. by rewrite list_lookup_insert_ne.
Qed.

(** The row at the [k]-th index receives the [k]-th source row, when the
    indices are distinct. *)
Lemma index_put_lookup (t : Tensor2) (idx : list nat) (src : Tensor2) (k j : nat) :
  NoDup idx → length src = length idx → (j < length t)%nat →
  idx !! k = Some j → index_put t idx src !! j = src !! k.
Proof.
  revert t src k.
  induction idx as [|i idx IH]; intros t [|r src] k Hnd Hlen Hj Hk; try done.
  apply NoDup_cons in Hnd as [Hi Hnd]. rewrite index_put_cons.
  destruct k as [|k]; simpl in *.
  - simplify_eq. rewrite index_put_lookup_other by done.
    by rewrite list_lookup_insert_eq.
  - apply IH; [done|lia| |done]. by rewrite length_insert.
Qed.

(** Copying rows of [x] onto themselves: [t[idx, :] = x[idx, :]]. *)
Lemma index_put_select_lookup (t x : Tensor2) (idx : list nat) (j : nat) :
  length t = length x → j ∈ idx → (j < length x)%nat →
  index_put t idx (index_select x idx) !! j = x !! j.
Proof.
  revert t. induction idx as [|i idx IH]; intros t Hlen Hj Hlt.
  - by apply elem_of_nil in Hj.
  - change (index_select x (i :: idx)) with (x !!! i :: index_select x idx).
    rewrite index_put_cons.
    destruct (decide (j ∈ idx)) as [Hin|Hnin].
    + apply IH; [by rewrite length_insert|done..].
    + apply elem_of_cons in Hj as [->|?]; [|done].
      rewrite index_put_lookup_other by done.
      rewrite list_lookup_insert_eq by lia.
      destruct (lookup_lt_is_Some_2 x i Hlt) as [r Hr].
      by rewrite (list_lookup_total_correct _ _ _ Hr).
Qed.

(** ** The loop that drops tokens *)

Section Properties.
Context `{TorchRandom} `{!TorchRandomLaws}.

Lemma bind_draw {A B} (f : Generator → A * Generator) (k : A → M B) (g : Generator) :
  (draw f ≫= k) g = k (f g).1 (f g).2.
Proof. unfold mbind, M_bind, draw. by destruct (f g). Qed.

Lemma bind_inr {A B} (m : M A) (k : A → M B) (g g' : Generator) (a : A) :
  m g = inr (a, g') → (m ≫= k) g = k a g'.
Proof. unfold mbind, M_bind. by intros ->. Qed.

Lemma bind_inr_inv {A B} (m : M A) (k : A → M B) (g g' : Generator) (b : B) :
  (m ≫= k) g = inr (b, g') → ∃ a g1, m g = inr (a, g1) ∧ k a g1 = inr (b, g').
Proof. unfold mbind, M_bind. destruct (m g) as [e|[a g1]]; [done|]. eauto. Qed.

Lemma bind_inl {A B} (m : M A) (k : A → M B) (g : Generator) (e : exn) :
  m g = inl e → (m ≫= k) g = inl e.
Proof. unfold mbind, M_bind. by intros ->. Qed.

Lemma cut_perm (capacity : Z) (idx kept dr : list nat) :
  cut capacity idx kept dr → kept ++ dr ≡ₚ idx.
Proof.
  unfold cut. case_bool_decide.
  - intros [-> ->]. by rewrite app_nil_r.
  - intros (perm & Hp & -> & ->). rewrite slice_to_from.
    by apply index_select_perm.
Qed.

Lemma cut_length (capacity : Z) (idx kept dr : list nat) :
  (0 ≤ capacity)%Z → cut capacity idx kept dr →
  (Z.of_nat (length kept) ≤ capacity)%Z.
Proof.
  intros Hc. unfold cut. case_bool_decide.
  - by intros [-> _].
  - intros (perm & _ & -> & _). rewrite length_slice_to by done. lia.
Qed.

(** The loop runs over the experts from [length done] on; it never raises,
    cuts every remaining group, and appends the dropped parts in the order
    of the experts. *)
Lemma drop_loop_spec (capacity : Z) (todo : list (list nat)) :
  ∀ (done : list (list nat)) (dropped : list (list nat)) (g : Generator),
  ∃ kd dropped' g',
    drop_loop capacity (seq (length done) (length todo)) (done ++ todo) dropped g
      = inr ((done ++ kd.*1, dropped'), g') ∧
    Forall2 (λ idx p, cut capacity idx p.1 p.2) todo kd ∧
    concat dropped' = concat dropped ++ concat kd.*2.
Proof.
  induction todo as [|idx todo IH]; intros done dropped g.
  - exists [], dropped, g. simpl. rewrite !app_nil_r. by split_and!.
  - simpl.
    assert ((done ++ idx :: todo) !!! length done = idx) as Hidx.
    { apply list_lookup_total_correct. by rewrite list_lookup_middle. }
    rewrite Hidx. case_bool_decide as Hfit.
    + destruct (IH (done ++ [idx]) dropped g) as (kd & dr' & g' & Hrun & Hkd & Hdr).
      rewrite length_app, Nat.add_1_r, <- app_assoc in Hrun. simpl in Hrun.
      exists ((idx, []) :: kd), dr', g'. split_and!.
      * rewrite Hrun. by rewrite <- app_assoc.
      * constructor; [|done]. unfold cut. simpl.
        by rewrite bool_decide_eq_true_2.
      * done.
    + rewrite bind_draw.
      set (perm := (randperm (length idx) g).1).
      set (g1 := (randperm (length idx) g).2).
      set (idx' := index_select idx perm).
      destruct (IH (done ++ [slice_to idx' capacity])
                   (dropped ++ [slice_from idx' capacity]) g1)
        as (kd & dr' & g' & Hrun & Hkd & Hdr).
      rewrite length_app, Nat.add_1_r, <- app_assoc in Hrun. simpl in Hrun.
      exists ((slice_to idx' capacity, slice_from idx' capacity) :: kd), dr', g'.
      split_and!.
      * rewrite insert_middle. rewrite Hrun. by rewrite <- app_assoc.
      * constructor; [|done]. unfold cut. simpl.
        rewrite bool_decide_eq_false_2 by done.
        exists perm. split; [apply randperm_perm|done].
      * rewrite Hdr, concat_app. simpl. by rewrite app_nil_r, <- app_assoc.
Qed.

(** ** Evaluating the experts and assembling the output *)

(** With one expert per switch the experts are evaluated without an
    error, each on the rows of its own group. *)
Lemma experts_loop_spec (self : SwitchFeedForward) (x : Tensor2)
    (indexes_list : list (list nat)) (m : nat) :
  ∀ (k : nat) (g : Generator),
  (k + m ≤ length (experts self))%nat →
  ∃ outs g',
    mapM (λ i, match (experts self !! i : option FeedForward) with
               | None => raise IndexError
               | Some expert => draw (expert (index_select x (indexes_list !!! i)))
               end) (seq k m) g = inr (outs, g') ∧
    Forall2 (λ i out, evaluated self x (indexes_list !!! i) i out) (seq k m) outs.
Proof.
  induction m as [|m IH]; intros k g Hlen.
  - exists [], g. by split.
  - simpl. destruct (lookup_lt_is_Some_2 (experts self) k) as [e He]; [lia|].
    rewrite He, bind_draw.
    destruct (IH (S k) (e (index_select x (indexes_list !!! k)) g).2)
      as (outs & g' & Hrun & Houts); [lia|].
    eexists (_ :: outs), g'. split.
    + erewrite bind_inr by exact Hrun. done.
    + constructor; [|done]. by exists e, g.
Qed.

Lemma Forall_index_put (P : list Qc → Prop) (t : Tensor2) (idx : list nat) (src : Tensor2) :
  Forall P t → Forall P src → Forall P (index_put t idx src).
Proof.
  revert t src. induction idx as [|i idx IH]; intros t [|r src] Ht Hs; try done.
  rewrite index_put_cons. apply Forall_cons in Hs as [Hr Hs].
  apply IH; [|done]. by apply Forall_insert.
Qed.

Lemma assign_S (t : Tensor2) (il : list (list nat)) (ro : list Tensor2) (m : nat) :
  assign t il ro (S m)
  = index_put (assign t il ro m) (il !!! m) (ro !!! m).
Proof. unfold assign. by rewrite seq_S, foldl_snoc. Qed.

Lemma length_assign (t : Tensor2) (il : list (list nat)) (ro : list Tensor2) (m : nat) :
  length (assign t il ro m) = length t.
Proof.
  induction m as [|m IH]; [done|]. by rewrite assign_S, length_index_put.
Qed.

Lemma Forall_assign (P : list Qc → Prop) (t : Tensor2) (il : list (list nat))
    (ro : list Tensor2) (m : nat) :
  Forall P t → (∀ i, (i < m)%nat → Forall P (ro !!! i)) →
  Forall P (assign t il ro m).
Proof.
  intros Ht. induction m as [|m IH]; intros Hro; [done|].
  rewrite assign_S. apply Forall_index_put; [apply IH|apply Hro]; auto with lia.
Qed.

(** A token of no group keeps its row. *)
Lemma assign_lookup_other (t : Tensor2) (il : list (list nat)) (ro : list Tensor2)
    (m j : nat) :
  (∀ i, (i < m)%nat → j ∉ il !!! i) →
  assign t il ro m !! j = t !! j.
Proof.
  induction m as [|m IH]; intros Hj; [done|].
  rewrite assign_S, index_put_lookup_other by auto with lia.
  apply IH. auto with lia.
Qed.

(** When the groups are disjoint and without repetition, the [k]-th token
    of group [i] receives the [k]-th row that expert [i] returned. *)
Lemma assign_lookup (t : Tensor2) (il : list (list nat)) (ro : list Tensor2)
    (m i k j : nat) :
  (∀ i, (i < m)%nat → NoDup (il !!! i)) →
  (∀ i, (i < m)%nat → length (ro !!! i) = length (il !!! i)) →
  (∀ i i' j, (i < m)%nat → (i' < m)%nat → j ∈ il !!! i → j ∈ il !!! i' → i = i') →
  (i < m)%nat → (j < length t)%nat → (il !!! i) !! k = Some j →
  assign t il ro m !! j = (ro !!! i) !! k.
Proof.
  induction m as [|m IH]; intros Hnd Hlen Hdisj Hi Hj Hk; [lia|].
  rewrite assign_S. destruct (decide (i = m)) as [->|Hne].
  - apply index_put_lookup; auto with lia. by rewrite length_assign.
  - rewrite index_put_lookup_other.
    + apply IH; auto with lia.
      intros i1 i2 j' ? ?. apply Hdisj; lia.
    + intros Hin. apply Hne. apply (Hdisj i m j); auto with lia.
      by eapply list_elem_of_lookup_2.
Qed.

(** ** The forward call *)

Lemma bind_lift_inr {A B} (a : A) (k : A → M B) (g : Generator) :
  (lift_exn (inr a) ≫= k) g = k a g.
Proof. done. Qed.

Lemma bind_mret {A B} (a : A) (k : A → M B) (g : Generator) :
  (mret a ≫= k) g = k a g.
Proof. done. Qed.

Lemma cut_if_perm (b : bool) (capacity : Z) (idx : list nat) (p : list nat * list nat) :
  cut_if b capacity idx p → p.1 ++ p.2 ≡ₚ idx.
Proof.
  unfold cut_if. destruct b.
  - apply cut_perm.
  - intros ->. simpl. by rewrite app_nil_r.
Qed.

(** Dropping, switched on or off, never raises; it cuts every group and
    collects the dropped parts in the order of the experts. *)
Lemma drop_phase_spec (b : bool) (capacity : Z) (routed : list (list nat)) (g : Generator) :
  ∃ kd dropped g',
    (if b then drop_loop capacity (seq 0 (length routed)) routed []
     else mret (routed, [])) g = inr ((kd.*1, dropped), g') ∧
    Forall2 (cut_if b capacity) routed kd ∧
    concat dropped = concat kd.*2.
Proof.
  destruct b.
  - destruct (drop_loop_spec capacity routed [] [] g)
      as (kd & dr & g' & Hrun & Hkd & Hdr).
    exists kd, dr, g'. by split_and!.
  - exists ((λ idx, (idx, [])) <$> routed), [], g. split_and!.
    + rewrite <- list_fmap_compose. by rewrite list_fmap_id.
    + apply Forall2_fmap_r, Forall_Forall2_diag, Forall_forall. by intros.
    + rewrite <- list_fmap_compose. simpl.
      induction routed as [|idx routed IH]; [done|]. by simpl.
Qed.

(** The groups after the cut, seen from the routes: a token that expert
    [i] keeps or drops was routed to [i], and no token occurs twice. *)
Lemma cut_groups (b : bool) (capacity : Z) (routes : list nat) (n : nat)
    (kd : list (list nat * list nat)) :
  Forall2 (cut_if b capacity)
          ((λ i, nonzero (torch_eq routes i)) <$> seq 0 n) kd →
  length kd = n ∧
  ∀ i kept dr, kd !! i = Some (kept, dr) →
    (i < n)%nat ∧
    cut_if b capacity (nonzero (torch_eq routes i)) (kept, dr) ∧
    kept ++ dr ≡ₚ nonzero (torch_eq routes i).
Proof.
  intros Hkd. pose proof (Forall2_length _ _ _ Hkd) as Hlen.
  rewrite length_fmap, length_seq in Hlen. split; [done|].
  intros i kept dr Hi.
  destruct (Forall2_lookup_r _ _ _ _ _ Hkd Hi) as (idx & Hidx & Hcut).
  rewrite list_lookup_fmap in Hidx.
  destruct (seq 0 n !! i) as [i'|] eqn:Hseq; simplify_eq/=.
  apply lookup_seq in Hseq as [-> ?]. split_and!; [done..|].
  by apply cut_if_perm in Hcut.
Qed.

Lemma elem_of_concat_snd {A B} (kd : list (A * list B)) (t : B) :
  t ∈ concat kd.*2 ↔ ∃ i kept dr, kd !! i = Some (kept, dr) ∧ t ∈ dr.
Proof.
  rewrite list_elem_of_In, in_concat. split.
  - intros (dr & Hdr & Ht).
    apply list_elem_of_In, list_elem_of_fmap in Hdr as ([kept dr'] & -> & Hp).
    apply list_elem_of_lookup in Hp as [i Hi].
    exists i, kept, dr'. split; [done|]. by apply list_elem_of_In.
  - intros (i & kept & dr & Hi & Ht). exists dr. split.
    + apply list_elem_of_In, list_elem_of_fmap. exists (kept, dr).
      split; [done|]. by eapply list_elem_of_lookup_2.
    + by apply list_elem_of_In.
Qed.

Lemma lookup_total_fst {A B} `{Inhabited A} (kd : list (A * B)) (i : nat) (a : A) (b : B) :
  kd !! i = Some (a, b) → kd.*1 !!! i = a.
Proof.
  intros Hi. apply list_lookup_total_correct.
  by rewrite list_lookup_fmap, Hi.
Qed.

(** The output buffer after the experts' rows have been assigned and the
    dropped tokens passed through. *)
Lemma assemble_spec (routes : list nat) (n d : nat)
    (kd : list (list nat * list nat)) (xs : Tensor2) (ro : list Tensor2) :
  length xs = length routes →
  Forall (λ r, length r = d) xs →
  length kd = n →
  (∀ i kept dr, kd !! i = Some (kept, dr) →
     kept ++ dr ≡ₚ nonzero (torch_eq routes i)) →
  Forall2 (λ p out, length out = length p.1 ∧ Forall (λ r, length r = d) out) kd ro →
  let F := index_put (assign (new_zeros (length xs) d) kd.*1 ro n)
                     (concat kd.*2) (index_select xs (concat kd.*2)) in
  length F = length xs ∧
  Forall (λ r, length r = d) F ∧
  (∀ i kept dr k t, kd !! i = Some (kept, dr) → kept !! k = Some t →
     ∃ out row, ro !! i = Some out ∧ out !! k = Some row ∧ F !! t = Some row) ∧
  (∀ t, t ∈ concat kd.*2 → F !! t = xs !! t).
Proof.
  intros Hxs Hdim Hn Hperm Hro F.
  assert (∀ i kept dr t, kd !! i = Some (kept, dr) → t ∈ kept ++ dr →
            routes !! t = Some i) as Hroute.
  { intros i kept dr t Hi Ht. rewrite (Hperm _ _ _ Hi) in Ht.
    by apply elem_of_nonzero_eq in Ht. }
  assert (∀ i kept dr, kd !! i = Some (kept, dr) → NoDup (kept ++ dr)) as Hnd.
  { intros i kept dr Hi. rewrite (Hperm _ _ _ Hi). apply NoDup_nonzero. }
  assert (∀ i, (i < n)%nat → ∃ kept dr out,
            kd !! i = Some (kept, dr) ∧ ro !! i = Some out ∧
            kd.*1 !!! i = kept ∧ ro !!! i = out ∧
            length out = length kept ∧ Forall (λ r, length r = d) out) as Hget.
  { intros i Hi. destruct (lookup_lt_is_Some_2 kd i) as [[kept dr] Hkd]; [lia|].
    destruct (Forall2_lookup_l _ _ _ _ _ Hro Hkd) as (out & Hout & Hlen & Hd).
    exists kept, dr, out. split_and!; try done.
    - by eapply lookup_total_fst.
    - by apply list_lookup_total_correct. }
  assert (Forall (λ t, (t < length xs)%nat) (concat kd.*2)) as Hdrop.
  { apply Forall_forall. intros t Ht.
    apply elem_of_concat_snd in Ht as (i & kept & dr & Hi & Ht).
    rewrite Hxs. eapply lookup_lt_Some, (Hroute i kept dr); [done|].
    apply elem_of_app. by right. }
  assert (length (assign (new_zeros (length xs) d) kd.*1 ro n) = length xs) as HlenA.
  { rewrite length_assign. apply length_replicate. }
  split_and!.
  - subst F. by rewrite length_index_put.
  - subst F. apply Forall_index_put.
    + apply Forall_assign.
      * apply Forall_replicate. apply length_replicate.
      * intros i Hi. destruct (Hget i Hi) as (?&?&?&?&?&?&->&?&?). done.
    + apply Forall_fmap. eapply Forall_impl; [exact Hdrop|].
      intros t Ht. simpl.
      destruct (lookup_lt_is_Some_2 xs t Ht) as [r Hr].
      rewrite (list_lookup_total_correct _ _ _ Hr).
      by eapply (Forall_lookup_1 _ _ _ _ Hdim).
  - intros i kept dr k t Hi Hk.
    assert (i < n)%nat as Hin by (apply lookup_lt_Some in Hi; lia).
    destruct (Hget i Hin) as (kept' & dr' & out & Hi' & Hout & Hil & Hro' & Hlen & _).
    rewrite Hi in Hi'. injection Hi' as <- <-.
    assert (is_Some (out !! k)) as [row Hrow].
    { apply lookup_lt_is_Some_2. rewrite Hlen. by eapply lookup_lt_Some. }
    exists out, row. split_and!; [done..|].
    assert (t ∈ kept ++ dr) as Ht.
    { apply elem_of_app. left. by eapply list_elem_of_lookup_2. }
    subst F. rewrite index_put_lookup_other.
    + rewrite <- Hrow, <- (list_lookup_total_correct _ _ _ Hout).
      apply assign_lookup.
      * intros j Hj. destruct (Hget j Hj) as (kj & dj & ? & Hkj & _ & -> & _).
        specialize (Hnd _ _ _ Hkj). by apply NoDup_app in Hnd as [? _].
      * intros j Hj. destruct (Hget j Hj) as (kj & dj & ? & Hkj & _ & -> & -> & ? & _).
        done.
      * intros j j' t' Hj Hj'.
        destruct (Hget j Hj) as (kj & dj & ? & Hkj & _ & -> & _).
        destruct (Hget j' Hj') as (kj' & dj' & ? & Hkj' & _ & -> & _).
        intros Ht1 Ht2.
        assert (routes !! t' = Some j) as H1.
        { eapply Hroute; [done|]. apply elem_of_app. by left. }
        assert (routes !! t' = Some j') as H2.
        { eapply Hroute; [done|]. apply elem_of_app. by left. }
        congruence.
      * done.
      * unfold new_zeros. rewrite length_replicate, Hxs.
        eapply lookup_lt_Some, Hroute; done.
      * by rewrite (lookup_total_fst _ _ _ _ Hi).
    + intros HtD. apply elem_of_concat_snd in HtD as (j & kj & dj & Hj & Htj).
      assert (routes !! t = Some j) as H1.
      { eapply Hroute; [done|]. apply elem_of_app. by right. }
      assert (routes !! t = Some i) as H2 by (by eapply Hroute).
      simplify_eq. specialize (Hnd _ _ _ Hi).
      apply NoDup_app in Hnd as (_ & Hdisj & _).
      eapply Hdisj; [|done]. by eapply list_elem_of_lookup_2.
  - intros t Ht. subst F. apply index_put_select_lookup; [done..|].
    by eapply (Forall_forall (λ t, (t < length xs)%nat)).
Qed.

Lemma pass_through (F xs : Tensor2) (dropped : list (list nat)) :
  match dropped with
  | [] => (F, [])
  | _ :: _ =>
      (index_put F (concat dropped) (index_select xs (concat dropped)),
       concat dropped)
  end
  = (index_put F (concat dropped) (index_select xs (concat dropped)),
     concat dropped).
Proof. by destruct dropped. Qed.

Lemma length_scale_rows (x : Tensor2) (factor : Tensor1) :
  length factor = length x → length (scale_rows x factor) = length x.
Proof. intros Hf. unfold scale_rows. rewrite length_zip_with. lia. Qed.

Lemma Forall_scale_rows (d : nat) (x : Tensor2) (factor : Tensor1) :
  Forall (λ r, length r = d) x →
  Forall (λ r, length r = d) (scale_rows x factor).
Proof.
  unfold scale_rows. intros Hx. revert factor.
  induction Hx as [|row x Hrow Hx IH]; intros [|f factor]; simpl; try done.
  constructor; [by rewrite length_fmap|apply IH].
Qed.

Lemma fmap_lookup_total_seq {A B} `{Inhabited A} (f : A → B) (l : list A) :
  (λ i, f (l !!! i)) <$> seq 0 (length l) = f <$> l.
Proof.
  transitivity (f <$> index_select l (seq 0 (length l))).
  - unfold index_select. by rewrite <- list_fmap_compose.
  - by rewrite index_select_seq.
Qed.

(** Up to line 103 the call does not raise on a well-shaped batch, for a
    router as construction leaves it: the next thing it does is to
    compute the capacity. *)
Lemma forward_body_capacity (capacity_of : nat → M Z)
    (self : SwitchFeedForward) (x : Tensor3) (g : Generator)
    (seq_len bs d_model : nat) :
  well_formed d_model self →
  shape x = (seq_len, bs, d_model) → well_shaped x →
  (0 < d_model)%nat → (0 < n_switches self)%nat →
  ∃ k : Z → M Locals,
    forward_body capacity_of self x g = (capacity_of (length (rows x)) ≫= k) g.
Proof.
  intros Hwf Hshape Hx Hd Hn.
  unfold well_shaped in Hx. rewrite Hshape in Hx. destruct Hx as [HN Hrows].
  unfold forward_body. rewrite Hshape.
  unfold view_2d. rewrite Hshape.
  rewrite (bool_decide_eq_false_2 (d_model = 0%nat)) by lia.
  rewrite bind_lift_inr.
  set (rp := (λ row, softmax self (switch self row)) <$> rows x).
  destruct (torch_max_spec (n_switches self) rp)
    as (vals & idxs & Hmax & Hvl & Hil & Hlt); [done| |].
  { subst rp. apply Forall_fmap. eapply Forall_impl; [exact Hrows|].
    intros row Hrow. simpl. rewrite (wf_softmax _ _ Hwf).
    by apply (wf_switch _ _ Hwf). }
  rewrite Hmax, bind_lift_inr. cbv zeta.
  assert (length rp = length (rows x)) as Hrp by (subst rp; apply length_fmap).
  rewrite length_scale_rows.
  - by eexists.
  - destruct (is_scale_prob self); [|rewrite length_fmap]; congruence.
Qed.

(** A call on a well-shaped batch, to a router as construction leaves it,
    returns when line 103 gives a capacity [c], and its local variables
    are then related as [body_post] says. *)
Lemma forward_body_spec (capacity_of : nat → M Z) (c : Z)
    (self : SwitchFeedForward) (x : Tensor3) (g : Generator)
    (seq_len bs d_model : nat) :
  well_formed d_model self →
  shape x = (seq_len, bs, d_model) → well_shaped x →
  (0 < d_model)%nat → (0 < n_switches self)%nat →
  (∀ g, capacity_of (length (rows x)) g = inr (c, g)) →
  ∃ l g', forward_body capacity_of self x g = inr (l, g') ∧ body_post c self x l.
Proof.
  intros Hwf Hshape Hx Hd Hn Hc.
  pose proof Hx as Hx'.
  unfold well_shaped in Hx'. rewrite Hshape in Hx'. destruct Hx' as [HN Hrows].
  unfold forward_body. rewrite Hshape.
  unfold view_2d. rewrite Hshape.
  rewrite (bool_decide_eq_false_2 (d_model = 0%nat)) by lia.
  rewrite bind_lift_inr.
  set (rp := (λ row, softmax self (switch self row)) <$> rows x).
  destruct (torch_max_spec (n_switches self) rp)
    as (vals & idxs & Hmax & Hvl & Hil & Hlt); [done| |].
  { subst rp. apply Forall_fmap. eapply Forall_impl; [exact Hrows|].
    intros row Hrow. simpl. rewrite (wf_softmax _ _ Hwf).
    by apply (wf_switch _ _ Hwf). }
  rewrite Hmax, bind_lift_inr. cbv zeta.
  rewrite !range_of_nat.
  assert (length rp = length (rows x)) as Hrp by (subst rp; apply length_fmap).
  set (fac := if is_scale_prob self then vals else (λ p, p / p) <$> vals).
  assert (length fac = length (rows x)) as Hfac.
  { subst fac. destruct (is_scale_prob self); [|rewrite length_fmap]; congruence. }
  set (xs := scale_rows (rows x) fac).
  assert (length xs = length (rows x)) as Hxs by by apply length_scale_rows.
  assert (Forall (λ r, length r = d_model) xs) as Hxd by by apply Forall_scale_rows.
  rewrite Hxs.
  rewrite (bind_inr _ _ _ _ _ (Hc g)).
  set (routed := (λ i, nonzero (torch_eq idxs i)) <$> seq 0 (n_switches self)).
  assert (length routed = n_switches self) as Hrl.
  { subst routed. by rewrite length_fmap, length_seq. }
  set (cap := c).
  destruct (drop_phase_spec (drop_tokens self) cap routed g)
    as (kd & dr & g1 & Hdrop & Hkd & Hdr).
  rewrite Hrl in Hdrop.
  erewrite bind_inr by exact Hdrop. cbv beta iota.
  destruct (cut_groups _ _ _ _ _ Hkd) as [Hkl Hgroups].
  destruct (experts_loop_spec self xs kd.*1 (n_switches self) 0 g1)
    as (ro & g2 & Hexp & Hro).
  { rewrite (wf_experts_length _ _ Hwf). lia. }
  erewrite bind_inr by exact Hexp.
  fold (assign (new_zeros (length (rows x)) d_model) kd.*1 ro (n_switches self)).
  rewrite pass_through, Hdr.
  assert (∀ i kept dr, kd !! i = Some (kept, dr) →
            ∃ out, ro !! i = Some out ∧ evaluated self xs kept i out) as Hev.
  { intros i kept dr' Hi.
    assert (seq 0 (n_switches self) !! i = Some i) as Hseq.
    { apply lookup_seq. split; [done|]. apply lookup_lt_Some in Hi. lia. }
    destruct (Forall2_lookup_l _ _ _ _ _ Hro Hseq) as (out & Hout & He).
    exists out. split; [done|]. by rewrite (lookup_total_fst _ _ _ _ Hi) in He. }
  assert (Forall2 (λ p out, length out = length p.1 ∧
                           Forall (λ r, length r = d_model) out) kd ro) as Hshapes.
  { apply Forall2_same_length_lookup_2.
    - apply Forall2_length in Hro. rewrite length_seq in Hro. lia.
    - intros i [kept dr'] out Hi Hout.
      destruct (Hev _ _ _ Hi) as (out' & Hout' & e & ge & He & ->).
      rewrite Hout in Hout'. injection Hout' as ->. simpl.
      pose proof (Forall_lookup_1 _ _ _ _ (wf_experts_shape _ _ Hwf) He) as Hsp.
      destruct (Hsp (index_select xs kept) ge) as [Hl Hdm].
      + apply Forall_fmap, Forall_forall. intros t Ht. simpl.
        destruct (Hgroups _ _ _ Hi) as (_ & _ & Hp).
        assert (t ∈ nonzero (torch_eq idxs i)) as Hti.
        { rewrite <- Hp. apply elem_of_app. by left. }
        apply elem_of_nonzero_eq, lookup_lt_Some in Hti.
        destruct (lookup_lt_is_Some_2 xs t) as [r Hr]; [lia|].
        rewrite (list_lookup_total_correct _ _ _ Hr).
        by eapply (Forall_lookup_1 _ _ _ _ Hxd).
      + split; [|done]. by rewrite Hl, length_index_select. }
  rewrite <- Hxs.
  destruct (assemble_spec idxs (n_switches self) d_model kd xs ro)
    as (HFl & HFd & HFp & HFdr); [lia|done|done| |done|].
  { intros i kept dr' Hi. by destruct (Hgroups _ _ _ Hi) as (_ & _ & Hp). }
  eexists _, g2. split; [reflexivity|].
  constructor; simpl; try done.
  - lia.
  - lia.
  - rewrite <- Hrl.
    apply (fmap_lookup_total_seq (λ idx : list nat, Qc_of_nat (length idx))).
  - by exists kd.
  - intros i idx Hi. rewrite list_lookup_fmap in Hi.
    destruct (kd !! i) as [[kept dr']|] eqn:Hkdi; simplify_eq/=.
    by eapply Hev.
  - unfold well_shaped. simpl. split; [lia|done].
  - intros i idx k t Hi Hk. rewrite list_lookup_fmap in Hi.
    destruct (kd !! i) as [[kept dr']|] eqn:Hkdi; simplify_eq/=.
    by eapply HFp.
Qed.

Lemma capacity_exact_inr (self : SwitchFeedForward) (len_x : nat) (g : Generator) :
  (0 < n_switches self)%nat →
  capacity_exact self len_x g
  = inr (int (capacity_factor self * Qc_of_nat len_x / Qc_of_nat (n_switches self)), g).
Proof.
  intros Hn. unfold capacity_exact.
  by rewrite (bool_decide_eq_false_2 (n_switches self = 0%nat)) by lia.
Qed.

(** The same with line 103 over the rationals, where it gives a capacity
    for every router that has an expert. *)
Lemma forward_spec (self : SwitchFeedForward) (x : Tensor3) (g : Generator)
    (seq_len bs d_model : nat) :
  well_formed d_model self →
  shape x = (seq_len, bs, d_model) → well_shaped x →
  (0 < d_model)%nat → (0 < n_switches self)%nat →
  ∃ l g', forward self x g = inr (l, g') ∧ forward_post self x l.
Proof.
  intros Hwf Hshape Hx Hd Hn.
  apply (forward_body_spec _ _ _ _ _ _ _ _ Hwf Hshape Hx Hd Hn).
  intros g0. by apply capacity_exact_inr.
Qed.

Lemma call_of_forward (self : SwitchFeedForward) (x : Tensor3) (g g' : Generator) (l : Locals) :
  forward self x g = inr (l, g') →
  __call__ self x g = inr (returned self l, g').
Proof. intros Hrun. unfold __call__. by erewrite bind_inr by exact Hrun. Qed.

(** ** Consequences for a single token *)

(** Every token [t] has a route [i]; it occurs once in what expert [i]
    keeps or drops, in no group of another expert, and it is among the
    dropped tokens exactly when expert [i] dropped it. *)
Lemma token_fate (self : SwitchFeedForward) (x : Tensor3) (l : Locals) (t : nat) :
  forward_post self x l → (t < length (rows x))%nat →
  ∃ i kept dr,
    routes l !! t = Some i ∧ (i < n_switches self)%nat ∧
    indexes_list l !! i = Some kept ∧
    cut_if (drop_tokens self) (capacity l) (nonzero (torch_eq (routes l) i)) (kept, dr) ∧
    NoDup (kept ++ dr) ∧ t ∈ kept ++ dr ∧
    (∀ j idx, indexes_list l !! j = Some idx → t ∈ idx → j = i) ∧
    (t ∈ dropped l ↔ t ∈ dr).
Proof.
  intros Hp Ht. destruct (fp_cut _ _ _ _ Hp) as (kd & Hil & Hdr & Hkd).
  rewrite (fp_routed _ _ _ _ Hp) in Hkd.
  destruct (cut_groups _ _ _ _ _ Hkd) as [Hkl Hgroups].
  rewrite <- (fp_routes_length _ _ _ _ Hp) in Ht.
  destruct (lookup_lt_is_Some_2 _ _ Ht) as [i Hi].
  pose proof (Forall_lookup_1 _ _ _ _ (fp_routes_lt _ _ _ _ Hp) Hi) as Hlt.
  simpl in Hlt.
  destruct (lookup_lt_is_Some_2 kd i) as [[kept dr] Hkdi]; [lia|].
  destruct (Hgroups _ _ _ Hkdi) as (_ & Hcut & Hperm).
  assert (∀ j kj dj t', kd !! j = Some (kj, dj) → t' ∈ kj ++ dj →
            routes l !! t' = Some j) as Hroute.
  { intros j kj dj t' Hj Ht'. destruct (Hgroups _ _ _ Hj) as (_ & _ & Hpj).
    rewrite Hpj in Ht'. by apply elem_of_nonzero_eq in Ht'. }
  exists i, kept, dr. split_and!; try done.
  - by rewrite Hil, list_lookup_fmap, Hkdi.
  - rewrite Hperm. apply NoDup_nonzero.
  - rewrite Hperm. by apply elem_of_nonzero_eq.
  - intros j idx Hj Hin. rewrite Hil, list_lookup_fmap in Hj.
    destruct (kd !! j) as [[kj dj]|] eqn:Hkdj; simplify_eq/=.
    assert (routes l !! t = Some j) as Hj'.
    { eapply Hroute; [done|]. apply elem_of_app. by left. }
    congruence.
  - rewrite Hdr, elem_of_concat_snd. split.
    + intros (j & kj & dj & Hj & Hin).
      assert (routes l !! t = Some j) as Hj'.
      { eapply Hroute; [done|]. apply elem_of_app. by right. }
      by simplify_eq.
    + intros Hin. by exists i, kept, dr.
Qed.

(** The groups after the cut and the dropped tokens are, together, all
    tokens. *)
Lemma kept_and_dropped (self : SwitchFeedForward) (x : Tensor3) (l : Locals) :
  forward_post self x l →
  concat (indexes_list l) ++ dropped l ≡ₚ seq 0 (length (rows x)).
Proof.
  intros Hp. destruct (fp_cut _ _ _ _ Hp) as (kd & -> & -> & Hkd).
  rewrite <- (fp_routes_length _ _ _ _ Hp).
  rewrite <- (concat_routed_all (routes l) (n_switches self))
    by apply (fp_routes_lt _ _ _ _ Hp).
  rewrite <- (fp_routed _ _ _ _ Hp).
  induction Hkd as [|idx [kept dr] routed kd Hcut Hkd IH]; [done|].
  apply cut_if_perm in Hcut. rewrite !fmap_cons. cbn [concat fst snd] in *.
  rewrite <- Hcut, <- IH, <- !app_assoc. f_equiv.
  apply Permutation_app_swap_app.
Qed.

Lemma length_concat_sum {A} (ls : list (list A)) :
  length (concat ls) = sum_list (length <$> ls).
Proof.
  induction ls as [|l ls IH]; [done|]. simpl. by rewrite length_app, IH.
Qed.

(** [row_max] returns the largest entry and a position that holds it. *)
Lemma row_max_spec (rest : list Qc) :
  ∀ (seen : list Qc) (v : Qc) (i : nat),
  seen !! i = Some v → Forall (λ u, u ≤ v) seen →
  let r := row_max v i (length seen) rest in
  (seen ++ rest) !! r.2 = Some r.1 ∧ Forall (λ u, u ≤ r.1) (seen ++ rest).
Proof.
  induction rest as [|y rest IH]; intros seen v i Hi Hle; simpl.
  - rewrite app_nil_r. by split.
  - replace (seen ++ y :: rest) with ((seen ++ [y]) ++ rest)
      by (by rewrite <- app_assoc).
    replace (S (length seen)) with (length (seen ++ [y]))
      by (rewrite length_app; simpl; lia).
    case_bool_decide as Hlt.
    + apply IH.
      * by rewrite lookup_app_r, Nat.sub_diag.
      * apply Forall_app. split; [|by repeat constructor].
        eapply Forall_impl; [exact Hle|]. intros u Hu. simpl in *.
        apply Qclt_le_weak. by eapply Qcle_lt_trans.
    + apply IH.
      * apply lookup_app_l_Some. done.
      * apply Forall_app. split; [done|]. repeat constructor.
        by apply Qcnot_lt_le.
Qed.

Lemma torch_max_argmax (width : nat) (t : Tensor2) (vals : Tensor1) (idxs : list nat)
    (j : nat) (row : list Qc) :
  torch_max width t = inr (vals, idxs) → t !! j = Some row → row ≠ [] →
  ∃ p i, vals !! j = Some p ∧ idxs !! j = Some i ∧
         row !! i = Some p ∧ Forall (λ v, v ≤ p) row.
Proof.
  unfold torch_max. case_bool_decide; [done|].
  intros [= <- <-] Hj Hrow. rewrite !list_lookup_fmap, Hj. simpl.
  destruct row as [|v rest]; [done|].
  destruct (row_max_spec rest [v] v 0) as [Hlook Hmax]; [done|by repeat constructor|].
  simpl in *. by eexists _, _.
Qed.

Lemma token_assigned (self : SwitchFeedForward) (x : Tensor3) (l : Locals)
    (seq_len bs d_model t : nat) :
  well_formed d_model self →
  shape x = (seq_len, bs, d_model) → well_shaped x →
  (0 < n_switches self)%nat →
  forward_post self x l → (t < length (rows x))%nat →
  ∃ i, assigned l t i.
Proof.
  intros Hwf Hshape Hx Hn Hp Ht.
  unfold well_shaped in Hx. rewrite Hshape in Hx. destruct Hx as [_ Hrows].
  destruct (lookup_lt_is_Some_2 _ _ Ht) as [xrow Hxrow].
  assert (route_prob l !! t = Some (softmax self (switch self xrow))) as Hrow.
  { by rewrite (fp_route_prob _ _ _ _ Hp), list_lookup_fmap, Hxrow. }
  destruct (torch_max_argmax _ _ _ _ _ _ (fp_max _ _ _ _ Hp) Hrow)
    as (p & i & Hv & Hi & Hrp & Hle).
  { intros Hnil. apply (f_equal length) in Hnil.
    rewrite (wf_softmax _ _ Hwf), (wf_switch _ _ Hwf) in Hnil; [simpl in Hnil; lia|].
    by eapply (Forall_lookup_1 _ _ _ _ Hrows). }
  exists i. split; [done|]. eauto 10.
Qed.

Lemma length_x_scaled (self : SwitchFeedForward) (x : Tensor3) (l : Locals) :
  forward_post self x l → length (x_scaled l) = length (rows x).
Proof.
  intros Hp. rewrite (fp_x_scaled _ _ _ _ Hp). apply length_scale_rows.
  rewrite (fp_factor _ _ _ _ Hp).
  destruct (is_scale_prob self); [|rewrite length_fmap];
    apply (fp_max_length _ _ _ _ Hp).
Qed.

Lemma lookup_index_select (xs : Tensor2) (idx : list nat) (k t : nat) :
  idx !! k = Some t → (t < length xs)%nat →
  index_select xs idx !! k = xs !! t.
Proof.
  intros Hk Ht. unfold index_select. rewrite list_lookup_fmap, Hk. simpl.
  destruct (lookup_lt_is_Some_2 xs t Ht) as [r Hr].
  by rewrite (list_lookup_total_correct _ _ _ Hr).
Qed.

(** The confidence of a token and its scaled row, from the input: the
    routing distribution of token [t] is the softmax of the routing layer
    on its input row; its route [i] holds the confidence [p], the largest
    entry of the distribution; and its scaled row is its input row times
    [p], or times [p / p] when [is_scale_prob] is false. *)
Lemma token_confidence (self : SwitchFeedForward) (x : Tensor3) (l : Locals)
    (seq_len bs d_model t : nat) (xrow : list Qc) :
  well_formed d_model self →
  shape x = (seq_len, bs, d_model) → well_shaped x →
  (0 < n_switches self)%nat →
  forward_post self x l → rows x !! t = Some xrow →
  ∃ i p,
    routes l !! t = Some i ∧
    route_prob l !! t = Some (softmax self (switch self xrow)) ∧
    softmax self (switch self xrow) !! i = Some p ∧
    Forall (λ v, v ≤ p) (softmax self (switch self xrow)) ∧
    route_prob_max l !! t = Some p ∧
    x_scaled l !! t
    = Some ((λ v, v * (if is_scale_prob self then p else p / p)) <$> xrow).
Proof.
  intros Hwf Hshape Hx Hn Hp Hxrow.
  unfold well_shaped in Hx. rewrite Hshape in Hx. destruct Hx as [_ Hrows].
  assert (route_prob l !! t = Some (softmax self (switch self xrow))) as Hrow.
  { by rewrite (fp_route_prob _ _ _ _ Hp), list_lookup_fmap, Hxrow. }
  destruct (torch_max_argmax _ _ _ _ _ _ (fp_max _ _ _ _ Hp) Hrow)
    as (p & i & Hv & Hi & Hrp & Hle).
  { intros Hnil. apply (f_equal length) in Hnil.
    rewrite (wf_softmax _ _ Hwf), (wf_switch _ _ Hwf) in Hnil; [simpl in Hnil; lia|].
    by eapply (Forall_lookup_1 _ _ _ _ Hrows). }
  exists i, p. split_and!; [done..|].
  rewrite (fp_x_scaled _ _ _ _ Hp), (fp_factor _ _ _ _ Hp). unfold scale_rows.
  rewrite lookup_zip_with, Hxrow. simpl.
  destruct (is_scale_prob self).
  - by rewrite Hv.
  - by rewrite list_lookup_fmap, Hv.
Qed.

(** A token that an expert keeps is processed by it; a token that it
    drops is passed through. *)
Lemma token_output (self : SwitchFeedForward) (x : Tensor3) (l : Locals) (t : nat) :
  forward_post self x l → (t < length (rows x))%nat →
  ∃ i, routes l !! t = Some i ∧
    ((processed_by self l t i ∧ t ∉ dropped l) ∨
     (passed_through l t ∧ in_no_group l t)).
Proof.
  intros Hp Ht.
  destruct (token_fate _ _ _ _ Hp Ht)
    as (i & kept & dr & Hi & Hin & Hkept & Hcut & Hnd & Hmem & Huniq & Hdr).
  exists i. split; [done|].
  apply NoDup_app in Hnd as (Hndk & Hdisj & _).
  apply elem_of_app in Hmem as [Hk|Hd].
  - left. split; [|rewrite Hdr; by apply Hdisj].
    apply list_elem_of_lookup in Hk as [k Hk].
    destruct (fp_processed _ _ _ _ Hp _ _ _ _ Hkept Hk) as (out & row & Hout & Hrow & Hfin).
    destruct (fp_outputs _ _ _ _ Hp _ _ Hkept) as (out' & Hout' & Hev).
    rewrite Hout in Hout'. injection Hout' as <-.
    exists kept, k, out, row. split_and!; try done.
    intros k' Hk'. by eapply NoDup_lookup.
  - right. split.
    + split; [by apply Hdr|]. apply (fp_dropped _ _ _ _ Hp). by apply Hdr.
    + intros j idx Hj Hin'. pose proof (Huniq _ _ Hj Hin') as ->.
      rewrite Hkept in Hj. injection Hj as <-. by eapply Hdisj.
Qed.

(** The call returns, and its output has one row per token. *)
Lemma forward_returns (self : SwitchFeedForward) (x : Tensor3) (g : Generator)
    (seq_len bs d_model : nat) :
  well_formed d_model self →
  shape x = (seq_len, bs, d_model) → well_shaped x →
  (0 < d_model)%nat → (0 < n_switches self)%nat →
  ∃ l g', forward self x g = inr (l, g') ∧ forward_post self x l ∧
          length (rows (final_output l)) = length (rows x).
Proof.
  intros Hwf Hshape Hx Hd Hn.
  destruct (forward_spec self x g _ _ _ Hwf Hshape Hx Hd Hn) as (l & g' & Hrun & Hp).
  exists l, g'. split_and!; [done..|].
  pose proof (fp_well_shaped _ _ _ _ Hp) as Hout.
  unfold well_shaped in Hout, Hx.
  rewrite (fp_shape _ _ _ _ Hp), Hshape in Hout. rewrite Hshape in Hx. lia.
Qed.

(** * The claims of the specification *)



(** C4.  For every input the numbers of tokens that the experts process
    after dropping, summed over the experts, and the returned number of
    dropped tokens add up to the number of tokens of the input. *)
Theorem C4_processed_plus_dropped (self : SwitchFeedForward) (x : Tensor3) (g : Generator)
    (seq_len bs d_model : nat) :
  well_formed d_model self →
  shape x = (seq_len, bs, d_model) → well_shaped x →
  (0 < d_model)%nat → (0 < n_switches self)%nat →
  ∃ l g' out counts route_prob_sum n_dropped,
    forward self x g = inr (l, g') ∧
    __call__ self x g = inr ((out, counts, route_prob_sum, n_dropped), g') ∧
    length (indexes_list l) = n_switches self ∧
    (sum_list (length <$> indexes_list l) + n_dropped)%nat = length (rows x).
Proof.
  intros Hwf Hshape Hx Hd Hn.
  destruct (forward_spec self x g _ _ _ Hwf Hshape Hx Hd Hn) as (l & g' & Hrun & Hp).
  eexists l, g', _, _, _, _. split_and!;
    [done|by apply call_of_forward| |].
  - destruct (fp_cut _ _ _ _ Hp) as (kd & -> & _ & Hkd).
    rewrite (fp_routed _ _ _ _ Hp) in Hkd.
    destruct (cut_groups _ _ _ _ _ Hkd) as [Hkl _]. by rewrite length_fmap.
  - rewrite <- length_concat_sum, <- length_app.
    by rewrite (kept_and_dropped _ _ _ Hp), length_seq.
Qed.


Lemma Qc_of_nat_0 : Qc_of_nat 0 = 0.
Proof. apply Z2Qc_inj_0. Qed.

Lemma Qc_of_nat_add (a b : nat) : Qc_of_nat (a + b) = Qc_of_nat a + Qc_of_nat b.
Proof. unfold Qc_of_nat. by rewrite Nat2Z.inj_add, Z2Qc_inj_add. Qed.

Lemma sum_Qc_of_nat (ns : list nat) :
  sum_Qc (Qc_of_nat <$> ns) = Qc_of_nat (sum_list ns).
Proof.
  induction ns as [|a ns IH]; [symmetry; apply Z2Qc_inj_0|].
  rewrite fmap_cons. cbn [sum_Qc foldr sum_list sum_list_with].
  fold (sum_Qc (Qc_of_nat <$> ns)). fold (sum_list ns).
  by rewrite IH, Qc_of_nat_add.
Qed.

(** C8.  With dropping switched on or off, the returned [counts] hold, for
    every expert, the number of tokens routed to it before any token is
    dropped, and they sum to the number of tokens of the input. *)
Theorem C8_counts_sum (self : SwitchFeedForward) (x : Tensor3) (g : Generator)
    (seq_len bs d_model : nat) :
  well_formed d_model self →
  shape x = (seq_len, bs, d_model) → well_shaped x →
  (0 < d_model)%nat → (0 < n_switches self)%nat →
  ∃ l g' out counts route_prob_sum n_dropped,
    forward self x g = inr (l, g') ∧
    __call__ self x g = inr ((out, counts, route_prob_sum, n_dropped), g') ∧
    counts
    = (λ i, Qc_of_nat (length (filter (λ t, routes l !! t = Some i)
                                      (seq 0 (length (rows x))))))
        <$> seq 0 (n_switches self) ∧
    sum_Qc counts = Qc_of_nat (length (rows x)).
Proof.
  intros Hwf Hshape Hx Hd Hn.
  destruct (forward_spec self x g _ _ _ Hwf Hshape Hx Hd Hn) as (l & g' & Hrun & Hp).
  eexists l, g', _, _, _, _. split_and!; [done|by apply call_of_forward|..].
  - rewrite (fp_counts _ _ _ _ Hp), (fp_routed _ _ _ _ Hp), <- list_fmap_compose.
    apply list_fmap_ext. intros _ i _. simpl. f_equal. f_equal.
    rewrite <- (fp_routes_length _ _ _ _ Hp). unfold nonzero, torch_eq.
    rewrite length_fmap. apply list_filter_iff. intros t.
    rewrite list_lookup_fmap. destruct (routes l !! t) as [r|]; simpl; [|done].
    case_bool_decide; naive_solver.
  - rewrite (fp_counts _ _ _ _ Hp).
    replace ((λ idx, Qc_of_nat (length idx)) <$> indexes_routed l)
      with (Qc_of_nat <$> (length <$> indexes_routed l))
      by (by rewrite <- list_fmap_compose).
    rewrite sum_Qc_of_nat, <- length_concat_sum. f_equal.
    rewrite (fp_routed _ _ _ _ Hp), concat_routed_all by apply (fp_routes_lt _ _ _ _ Hp).
    by rewrite length_seq, (fp_routes_length _ _ _ _ Hp).
Qed.

(** ** Capacity *)

Lemma int_floor (q : Qc) : 0 ≤ q → int q = floor q.
Proof.
  destruct q as [[num den] Hq]. unfold int, floor, Qfloor, Qcle, Qle. simpl.
  intros Hle. apply Z.quot_div_nonneg; lia.
Qed.

Lemma Qcinv_nonneg (q : Qc) : 0 ≤ q → 0 ≤ / q.
Proof.
  unfold Qcle. intros Hq. change (this 0) with (Qred 0) in *.
  unfold Qcinv. cbn [this Q2Qc]. rewrite Qred_correct in Hq.
  rewrite !Qred_correct. by apply Qinv_le_0_compat.
Qed.

Lemma Qc_of_nat_nonneg (n : nat) : 0 ≤ Qc_of_nat n.
Proof.
  unfold Qc_of_nat. rewrite <- Z2Qc_inj_0.
  apply (proj1 (Z2Qc_inj_le 0 (Z.of_nat n))). lia.
Qed.

Lemma capacity_nonneg (cf : Qc) (tokens n : nat) :
  0 ≤ cf → 0 ≤ cf * Qc_of_nat tokens / Qc_of_nat n.
Proof.
  intros Hcf. unfold Qcdiv. apply Qcmult_nonneg_nonneg.
  - apply Qcmult_nonneg_nonneg; [done|apply Qc_of_nat_nonneg].
  - apply Qcinv_nonneg, Qc_of_nat_nonneg.
Qed.

Lemma slice_to_take {A} (l : list A) (c : Z) :
  (0 ≤ c)%Z → slice_to l c = take (Z.to_nat c) l.
Proof.
  intros Hc. unfold slice_to, slice_bound.
  rewrite bool_decide_eq_false_2 by lia.
  destruct (decide (Z.to_nat c ≤ length l)%nat).
  - by rewrite Nat.min_l.
  - rewrite Nat.min_r by lia. by rewrite !take_ge by lia.
Qed.

(** With dropping enabled and a capacity [c] that is not negative, no
    expert is given more than [c] rows; a group within the capacity is
    left as routed, and a group over it is indexed by a permutation of
    its positions and truncated to its first [c] indices. *)
Lemma groups_within_capacity (c : Z) (self : SwitchFeedForward) (x : Tensor3) (l : Locals) :
  body_post c self x l → drop_tokens self = true → (0 ≤ c)%Z →
  (∀ i idx, indexes_list l !! i = Some idx →
     (Z.of_nat (length idx) ≤ c)%Z ∧
     ∃ out, route_outputs l !! i = Some out ∧
            evaluated self (x_scaled l) idx i out ∧
            (Z.of_nat (length (index_select (x_scaled l) idx)) ≤ c)%Z) ∧
  (∀ i routed, indexes_routed l !! i = Some routed →
     if bool_decide (Z.of_nat (length routed) ≤ c)%Z
     then indexes_list l !! i = Some routed
     else ∃ perm, perm ≡ₚ seq 0 (length routed) ∧
            indexes_list l !! i
            = Some (take (Z.to_nat c) (index_select routed perm))).
Proof.
  intros Hp Hdrop Hpos.
  destruct (fp_cut _ _ _ _ Hp) as (kd & Hil & Hdr & Hkd).
  rewrite Hdrop, (fp_capacity _ _ _ _ Hp) in Hkd.
  split.
  - intros i idx Hi.
    assert (Z.of_nat (length idx) ≤ c)%Z as Hlen.
    { rewrite Hil, list_lookup_fmap in Hi.
      destruct (kd !! i) as [[kept dr]|] eqn:Hkdi; simplify_eq/=.
      destruct (Forall2_lookup_r _ _ _ _ _ Hkd Hkdi) as (routed & _ & Hcut).
      by eapply cut_length. }
    split; [done|].
    destruct (fp_outputs _ _ _ _ Hp _ _ Hi) as (out & Hout & Hev).
    exists out. split_and!; [done..|]. by rewrite length_index_select.
  - intros i routed Hi.
    destruct (Forall2_lookup_l _ _ _ _ _ Hkd Hi) as ([kept dr] & Hkdi & Hcut).
    unfold cut_if, cut in Hcut. simpl in Hcut.
    rewrite Hil, list_lookup_fmap, Hkdi. simpl.
    case_bool_decide.
    + by destruct Hcut as [-> _].
    + destruct Hcut as (perm & Hperm & -> & _). exists perm.
      split; [done|]. by rewrite slice_to_take.
Qed.

(** ** Line 103 in floats *)

(** Rounding keeps the sign it is given. *)
Lemma binary_round_aux_sign (s : bool) (m e : Z) (lx : location) :
  match binary_round_aux prec emax s m e lx with
  | S754_zero s' | S754_finite s' _ _ | S754_infinity s' => s' = s
  | S754_nan => True
  end.
Proof.
  unfold binary_round_aux.
  destruct (shr_fexp _ _ m e lx) as [mrs e'].
  destruct (shr_fexp _ _ _ e' _) as [mrs' e''].
  destruct (shr_m mrs'); [done| |done].
  by destruct (Z.leb _ _).
Qed.

Lemma SF64mul_nonneg (a b : spec_float) :
  sf_nonneg a → sf_plus b → sf_nonneg (SF64mul a b).
Proof.
  unfold SF64mul.
  destruct a as [sa|sa| |sa ma ea], b as [sb|sb| |sb mb eb]; simpl;
    intros Ha Hb; subst; try done.
  pose proof (binary_round_aux_sign (xorb false false)
                (Z.pos (ma * mb)) (ea + eb) loc_Exact) as Hs.
  by destruct (binary_round_aux _ _ _ _ _ _).
Qed.

Lemma SF64div_nonneg (a b : spec_float) :
  sf_nonneg a → sf_plus b → sf_nonneg (SF64div a b).
Proof.
  unfold SF64div.
  destruct a as [sa|sa| |sa ma ea], b as [sb|sb| |sb mb eb]; simpl;
    intros Ha Hb; subst; try done.
  destruct (SFdiv_core_binary _ _ _ _ _ _) as [[mz ez] lz].
  pose proof (binary_round_aux_sign (xorb false false) mz ez lz) as Hs.
  by destruct (binary_round_aux _ _ _ _ _ _).
Qed.

Lemma float_of_size_plus (n : nat) (a : float) :
  float_of_size n = inr a → sf_plus (Prim2SF a).
Proof.
  unfold float_of_size. case_bool_decide; [|done]. intros [= <-].
  rewrite of_uint63_spec.
  pose proof (Uint63.to_Z_bounded (Uint63.of_Z (Z.of_nat n))) as [Hz _].
  destruct (Uint63.to_Z _) as [|p|p]; [done| |done]. simpl.
  unfold binary_round.
  destruct (shl_align _ _ _) as [mz ez].
  pose proof (binary_round_aux_sign false (Z.pos mz) ez loc_Exact) as Hs.
  by destruct (binary_round_aux _ _ _ _ _ _).
Qed.

Lemma leb_zero_nonneg (f : float) :
  (0 <=? f)%float = true → sf_nonneg (Prim2SF f).
Proof.
  rewrite leb_spec.
  change (Prim2SF 0%float) with (S754_zero false).
  destruct (Prim2SF f) as [s|s| |s m e]; try done; by destruct s.
Qed.

(** A capacity factor that is not negative gives, when line 103 returns,
    a capacity that is not negative. *)
Lemma float_capacity_nonneg (cf : float) (len_x n : nat) (c : Z) :
  (0 <=? cf)%float = true → float_capacity cf len_x n = inr c → (0 ≤ c)%Z.
Proof.
  intros Hcf. unfold float_capacity.
  destruct (float_of_size len_x) as [?|a] eqn:Ha; [done|].
  destruct (float_of_size n) as [?|b] eqn:Hb; [done|].
  destruct (is_zero b); [done|].
  unfold int_of_float. rewrite div_spec, mul_spec.
  pose proof (SF64div_nonneg _ _
                (SF64mul_nonneg _ _ (leb_zero_nonneg _ Hcf) (float_of_size_plus _ _ Ha))
                (float_of_size_plus _ _ Hb)) as Hs.
  destruct (SF64div _ _) as [s|s| |s m e]; try done.
  - by intros [= <-].
  - simpl in Hs. subst s. intros [= <-]. by apply Z.shiftl_nonneg.
Qed.

(** The call in floats: it returns when line 103 does, and raises what
    line 103 raises. *)
Lemma forward_float_spec (cf : float) (c : Z)
    (self : SwitchFeedForward) (x : Tensor3) (g : Generator)
    (seq_len bs d_model : nat) :
  well_formed d_model self →
  shape x = (seq_len, bs, d_model) → well_shaped x →
  (0 < d_model)%nat → (0 < n_switches self)%nat →
  float_capacity cf (length (rows x)) (n_switches self) = inr c →
  ∃ l g', forward_float cf self x g = inr (l, g') ∧
          call_float cf self x g = inr (returned self l, g') ∧
          body_post c self x l.
Proof.
  intros Hwf Hshape Hx Hd Hn Hc.
  destruct (forward_body_spec
              (λ len_x, lift_exn (float_capacity cf len_x (n_switches self)))
              c self x g _ _ _ Hwf Hshape Hx Hd Hn) as (l & g' & Hrun & Hp).
  { intros g0. by rewrite Hc. }
  exists l, g'. split_and!; [done| |done].
  unfold call_float. by rewrite (bind_inr _ _ _ _ _ Hrun).
Qed.

Lemma forward_float_raises (cf : float) (e : exn)
    (self : SwitchFeedForward) (x : Tensor3) (g : Generator)
    (seq_len bs d_model : nat) :
  well_formed d_model self →
  shape x = (seq_len, bs, d_model) → well_shaped x →
  (0 < d_model)%nat → (0 < n_switches self)%nat →
  float_capacity cf (length (rows x)) (n_switches self) = inl e →
  forward_float cf self x g = inl e ∧ call_float cf self x g = inl e.
Proof.
  intros Hwf Hshape Hx Hd Hn He.
  assert (forward_float cf self x g = inl e) as Hrun.
  { unfold forward_float.
    destruct (forward_body_capacity
                (λ len_x, lift_exn (float_capacity cf len_x (n_switches self)))
                self x g _ _ _ Hwf Hshape Hx Hd Hn) as [k ->].
    apply bind_inl. by rewrite He. }
  split; [done|]. unfold call_float. by apply bind_inl.
Qed.



(** ** Sums of routing probabilities *)

Lemma length_sum_0 (width : nat) (t : Tensor2) :
  Forall (λ row, length row = width) t → length (sum_0 width t) = width.
Proof.
  induction 1 as [|row t Hrow Ht IH]; simpl.
  - apply length_replicate.
  - rewrite length_zip_with. fold (sum_0 width t). lia.
Qed.

(** Entry [j] of [t.sum(0)] is the sum of column [j]. *)
Lemma sum_0_lookup (width : nat) (t : Tensor2) (j : nat) :
  Forall (λ row, length row = width) t → (j < width)%nat →
  sum_0 width t !! j = Some (sum_Qc ((λ row, row !!! j) <$> t)).
Proof.
  intros Ht Hj. induction Ht as [|row t Hrow Ht IH]; simpl.
  - by apply lookup_replicate_2.
  - fold (sum_0 width t). rewrite lookup_zip_with, IH.
    destruct (lookup_lt_is_Some_2 row j) as [p Hp]; [lia|].
    rewrite Hp. simpl. by rewrite (list_lookup_total_correct _ _ _ Hp).
Qed.

Lemma sum_Qc_zip_with (a b : list Qc) :
  length a = length b →
  sum_Qc (zip_with Qcplus a b) = sum_Qc a + sum_Qc b.
Proof.
  revert b. induction a as [|u a IH]; intros [|v b] Hlen; simplify_eq/=.
  - ring.
  - fold (sum_Qc (zip_with Qcplus a b)). fold (sum_Qc a). fold (sum_Qc b).
    rewrite IH by done. ring.
Qed.

Lemma sum_Qc_replicate_0 (n : nat) : sum_Qc (replicate n 0) = 0.
Proof.
  induction n as [|n IH]; [done|]. simpl. fold (sum_Qc (replicate n 0)).
  rewrite IH. ring.
Qed.

(** The entries of [t.sum(0)] sum to the sum of all entries of [t]. *)
Lemma sum_Qc_sum_0 (width : nat) (t : Tensor2) :
  Forall (λ row, length row = width) t →
  sum_Qc (sum_0 width t) = sum_Qc (sum_Qc <$> t).
Proof.
  induction 1 as [|row t Hrow Ht IH]; simpl.
  - apply sum_Qc_replicate_0.
  - fold (sum_0 width t). fold (sum_Qc (sum_Qc <$> t)).
    rewrite sum_Qc_zip_with, IH; [done|]. by rewrite length_sum_0.
Qed.

Lemma sum_Qc_ones (t : Tensor2) :
  Forall (λ row, sum_Qc row = 1) t →
  sum_Qc (sum_Qc <$> t) = Qc_of_nat (length t).
Proof.
  induction 1 as [|row t Hrow Ht IH].
  - symmetry. apply Qc_of_nat_0.
  - rewrite fmap_cons. cbn [sum_Qc foldr length].
    fold (sum_Qc (sum_Qc <$> t)).
    rewrite IH, Hrow. change (S (length t)) with (1 + length t)%nat.
    rewrite Qc_of_nat_add. by f_equal.
Qed.

(** C10.  The returned sum of routing probabilities has one entry per
    expert; entry [j] is the sum, over all tokens, of the probability that
    the softmax gives expert [j] for the token, whether the token is
    routed to [j] or not.  With a softmax whose rows sum to one the
    entries sum to the number of tokens of the input. *)
Theorem C10_route_prob_sum (self : SwitchFeedForward) (x : Tensor3) (g : Generator)
    (seq_len bs d_model : nat) :
  well_formed d_model self →
  shape x = (seq_len, bs, d_model) → well_shaped x →
  (0 < d_model)%nat → (0 < n_switches self)%nat →
  normalised (softmax self) →
  ∃ l g' out counts route_prob_sum n_dropped,
    forward self x g = inr (l, g') ∧
    __call__ self x g = inr ((out, counts, route_prob_sum, n_dropped), g') ∧
    route_prob l = (λ row, softmax self (switch self row)) <$> rows x ∧
    length route_prob_sum = n_switches self ∧
    (∀ j, (j < n_switches self)%nat →
       route_prob_sum !! j
       = Some (sum_Qc ((λ row, row !!! j) <$> route_prob l))) ∧
    sum_Qc route_prob_sum = Qc_of_nat (length (rows x)).
Proof.
  intros Hwf Hshape Hx Hd Hn Hnorm.
  destruct (forward_spec self x g _ _ _ Hwf Hshape Hx Hd Hn) as (l & g' & Hrun & Hp).
  unfold well_shaped in Hx. rewrite Hshape in Hx. destruct Hx as [_ Hrows].
  assert (Forall (λ row, length row = n_switches self) (route_prob l)) as Hw.
  { rewrite (fp_route_prob _ _ _ _ Hp). apply Forall_fmap.
    eapply Forall_impl; [exact Hrows|]. intros row Hrow. simpl.
    rewrite (wf_softmax _ _ Hwf). by apply (wf_switch _ _ Hwf). }
  eexists l, g', _, _, _, _.
  split_and!; [done|by apply call_of_forward|apply Hp|..].
  - by apply length_sum_0.
  - intros j Hj. by apply sum_0_lookup.
  - rewrite sum_Qc_sum_0 by done. rewrite sum_Qc_ones.
    + by rewrite (fp_route_prob _ _ _ _ Hp), length_fmap.
    + rewrite (fp_route_prob _ _ _ _ Hp). apply Forall_fmap.
      eapply Forall_impl; [exact Hrows|]. intros row Hrow. simpl.
      apply Hnorm. intros Hnil. apply (f_equal length) in Hnil.
      rewrite (wf_switch _ _ Hwf) in Hnil by done. simpl in Hnil. lia.
Qed.

(** ** Configurations that the code does not check *)

Lemma mapM_inr {A B} (f : A → M B) (P : B → Prop) (l : list A) :
  (∀ a g y g', f a g = inr (y, g') → P y) →
  ∀ g ys g', mapM f l g = inr (ys, g') → length ys = length l ∧ Forall P ys.
Proof.
  intros Hf. induction l as [|a l IH]; intros g ys g'; simpl.
  - intros [= <- <-]. by split.
  - intros Hrun.
    apply bind_inr_inv in Hrun as (y & g1 & Hfa & Hrun).
    apply bind_inr_inv in Hrun as (ys' & g2 & Hrest & Hret).
    injection Hret as <- <-. destruct (IH _ _ _ Hrest) as [Hlen Hall].
    split; [simpl; lia|]. constructor; [by eapply Hf|done].
Qed.

Section Construction.
Context `{!Collaborators} `{!CollaboratorLaws}.

(** X12.  A router that [__init__] returns is well formed for tokens of
    [d_model] features: it has one expert per switch, all keeping the
    shape of their input, and a routing layer from [d_model] to
    [n_experts] features; and it stores the configuration it was given. *)
Lemma init_well_formed (cf : Qc) (dt sp : bool) (n_experts : Z) (d_model d_ff : nat)
    (dropout : Qc) (g g' : Generator) (self : SwitchFeedForward) :
  __init__ cf dt sp n_experts d_model d_ff dropout g = inr (self, g') →
  well_formed d_model self ∧
  n_switches self = Z.to_nat n_experts ∧ capacity_factor self = cf ∧
  drop_tokens self = dt ∧ is_scale_prob self = sp.
Proof.
  unfold __init__. intros Hrun.
  apply bind_inr_inv in Hrun as (ffs & g1 & Hffs & Hrun).
  apply bind_inr_inv in Hrun as (lin & g2 & Hlin & Hret).
  injection Hret as <- <-. simpl.
  destruct (mapM_inr _ (shape_preserving d_model) _
              (λ _ g y g', new_FeedForward_shape d_model d_ff dropout g y g')
              _ _ _ Hffs) as [Hlen Hall].
  split_and!; try done. constructor; simpl.
  - rewrite Hlen. unfold range. by rewrite length_seq.
  - done.
  - by eapply nn_Linear_shape.
  - apply nn_Softmax_length.
Qed.


End Construction.

End Properties.

(** * The concrete generator and router satisfy the laws *)

#[local] Instance rotating_laws : @TorchRandomLaws rotating.
Proof.
  constructor. intros n g. simpl.
  rewrite Permutation_app_comm. by rewrite take_drop.
Qed.

Lemma toy_expert_shape (f : Qc → Qc) (d : nat) :
  @shape_preserving rotating d (λ (t : Tensor2) g, ((λ row : Tensor1, f <$> row) <$> t, g)).
Proof.
  intros t g Ht. simpl. split; [by rewrite length_fmap|].
  apply Forall_fmap. eapply Forall_impl; [exact Ht|].
  intros row Hrow. simpl. by rewrite length_fmap.
Qed.

Lemma length_toy_linear (n : nat) (row : list Qc) :
  length (toy_linear n row) = n.
Proof.
  unfold toy_linear. rewrite length_take, length_app, length_replicate. lia.
Qed.

Lemma toy_well_formed (cf : Qc) (dt sp : bool) : well_formed 2 (toy cf dt sp).
Proof.
  constructor; simpl.
  - done.
  - constructor; [apply toy_expert_shape|].
    constructor; [apply toy_expert_shape|]. constructor.
  - intros row Hrow. apply length_toy_linear.
  - intros row. unfold toy_softmax. by rewrite !length_fmap.
Qed.

Lemma sum_Qc_cons (u : Qc) (w : list Qc) : sum_Qc (u :: w) = u + sum_Qc w.
Proof. done. Qed.

Lemma sum_Qc_div (w : list Qc) (s : Qc) :
  sum_Qc ((λ v, v / s) <$> w) = sum_Qc w / s.
Proof.
  induction w as [|u w IH].
  - unfold Qcdiv. simpl. ring.
  - rewrite fmap_cons, !sum_Qc_cons, IH. unfold Qcdiv. ring.
Qed.

Lemma sum_Qc_pos (w : list Qc) :
  w ≠ [] → Forall (λ u, 0 < u) w → 0 < sum_Qc w.
Proof.
  intros Hne Hw. destruct Hw as [|u w Hu Hw]; [done|]. clear Hne.
  rewrite sum_Qc_cons. apply Qcplus_pos_nonneg; [done|].
  induction Hw as [|v w Hv Hw IH]; [done|].
  rewrite sum_Qc_cons. apply Qclt_le_weak. by apply Qcplus_pos_nonneg.
Qed.

Lemma toy_normalised : normalised toy_softmax.
Proof.
  intros row Hrow. unfold toy_softmax. cbv zeta. rewrite sum_Qc_div.
  apply Qcmult_inv_r. apply not_eq_sym, Qclt_not_eq, sum_Qc_pos.
  - by destruct row.
  - apply Forall_fmap, Forall_forall. intros v _. simpl.
    case_bool_decide; [|done]. by apply Qcplus_pos_pos.
Qed.

#[local] Instance toy_collaborator_laws : @CollaboratorLaws rotating toy_collaborators.
Proof.
  constructor; simpl.
  - intros d n g Hn. rewrite bool_decide_eq_true_2 by done. by eexists.
  - intros d n g lin g'. case_bool_decide; [done|].
    intros [= <- <-] row Hrow. apply length_toy_linear.
  - intros d d_ff p g ff g' [= <- <-].
    destruct (Nat.even g); apply toy_expert_shape.
  - intros row. unfold toy_softmax. by rewrite !length_fmap.
Qed.

(** * The model at work *)

Ltac toy_side :=
  first [ apply toy_well_formed
        | apply toy_normalised
        | reflexivity
        | split; [reflexivity|repeat constructor]
        | simpl; lia
        | by vm_compute ].

(** Runs the model in an equation [H : m g = r] and reads off the result. *)
Ltac run_in H :=
  vm_compute in H; first [discriminate H | injection H as <- <-].

(** Proves [∃ l g', m g = inr (l, g') ∧ P l g'] by running [m g]. *)
Ltac by_running :=
  lazymatch goal with
  | |- ∃ l g', ?m = inr (l, g') ∧ _ =>
      let Hrun := fresh "Hrun" in
      destruct m as [?|[? ?]] eqn:Hrun; run_in Hrun;
      eexists _, _; split; [reflexivity|]; vm_compute
  end.

(** Four tokens, two experts and a capacity factor of one: the capacity is
    two; three tokens are routed to expert 0, which processes two of them
    while the third is passed through, and expert 1 processes its one
    token. *)
Example scenario_drop :
  ∃ l g', forward (toy 1 true true) batch4 0%nat = inr (l, g') ∧
    capacity l = 2%Z ∧ routes l = [0; 0; 1; 0]%nat ∧
    indexes_routed l = [[0; 1; 3]; [2]]%nat ∧
    indexes_list l = [[0; 1]; [2]]%nat ∧ dropped l = [3]%nat.
Proof. by_running. done. Qed.

(** The same without dropping: expert 0 processes its three tokens. *)
Example scenario_keep :
  ∃ l g', forward (toy 1 false true) batch4 0%nat = inr (l, g') ∧
    capacity l = 2%Z ∧ indexes_list l = [[0; 1; 3]; [2]]%nat ∧ dropped l = [].
Proof. by_running. done. Qed.

(** Without a seed in between, a second call draws another permutation
    and drops another token. *)
Example unseeded_calls_differ :
  ∃ l1 g1, forward (toy 1 true true) batch4 0%nat = inr (l1, g1) ∧
  ∃ l2 g2, forward (toy 1 true true) batch4 g1 = inr (l2, g2) ∧
    dropped l1 = [3]%nat ∧ dropped l2 = [0]%nat.
Proof. by_running. by_running. done. Qed.

(** A negative capacity factor gives a negative capacity, and the slices
    then count from the end: expert 0 processes two tokens. *)
Example negative_capacity_factor :
  ∃ l g', forward (toy (Q2Qc (-1 # 2)) true true) batch4 0%nat = inr (l, g') ∧
    capacity l = (-1)%Z ∧ indexes_list l = [[0; 1]; []]%nat ∧
    dropped l = [3; 2]%nat.
Proof. by_running. done. Qed.

(** A batch of no features cannot be viewed as rows. *)
Example no_features :
  forward (toy 1 true true) (batch0 3 0) 0%nat = inl RuntimeError.
Proof. by vm_compute. Qed.


(** Line 103 on a few inputs. *)
Example float_capacity_examples :
  float_capacity 1 4 2 = inr 2%Z ∧
  float_capacity float_1_4 15 3 = inr 7%Z ∧
  float_capacity float_1_4 45 3 = inr 20%Z ∧
  float_capacity (-0.5) 4 2 = inr (-1)%Z ∧
  float_capacity 1 4 0 = inl ZeroDivisionError ∧
  float_capacity infinity 4 2 = inl OverflowError ∧
  float_capacity infinity 0 2 = inl ValueError ∧
  float_capacity 0x1p+1023 4 2 = inl OverflowError.
Proof. by vm_compute. Qed.

Lemma this_capacity (q : Qc) (tokens n : nat) :
  (this (q * Qc_of_nat tokens / Qc_of_nat n)
   == this q * inject_Z (Z.of_nat tokens) / inject_Z (Z.of_nat n))%Q.
Proof.
  unfold Qcdiv, Qcmult, Qcinv, Qc_of_nat, Qc_of_Z, Q2Qc. cbn [this].
  by rewrite !Qred_correct.
Qed.


(** * The claims on the concrete router *)




(** C4 on four tokens and two experts, with dropping. *)
Lemma C4_witness :
  well_formed 2 (toy 1 true true) ∧ well_shaped batch4 ∧
  ∃ l g' out counts route_prob_sum n_dropped,
    forward (toy 1 true true) batch4 0%nat = inr (l, g') ∧
    __call__ (toy 1 true true) batch4 0%nat
    = inr ((out, counts, route_prob_sum, n_dropped), g') ∧
    (sum_list (length <$> indexes_list l) + n_dropped)%nat = 4%nat.
Proof.
  split; [toy_side|]. split; [toy_side|].
  destruct (C4_processed_plus_dropped (toy 1 true true) batch4 0%nat 2 2 2)
    as (l & g' & out & counts & rps & nd & Hrun & Hcall & _ & Hsum); [toy_side..|].
  exists l, g', out, counts, rps, nd. split_and!; assumption.
Defined.




(** C8 on four tokens and two experts. *)
Lemma C8_witness :
  well_formed 2 (toy 1 true true) ∧ well_shaped batch4 ∧
  ∃ l g' out counts route_prob_sum n_dropped,
    forward (toy 1 true true) batch4 0%nat = inr (l, g') ∧
    __call__ (toy 1 true true) batch4 0%nat
    = inr ((out, counts, route_prob_sum, n_dropped), g') ∧
    sum_Qc counts = Qc_of_nat 4.
Proof.
  split; [toy_side|]. split; [toy_side|].
  destruct (C8_counts_sum (toy 1 true true) batch4 0%nat 2 2 2)
    as (l & g' & out & counts & rps & nd & Hrun & Hcall & _ & Hsum); [toy_side..|].
  exists l, g', out, counts, rps, nd. split_and!; assumption.
Defined.

(** C10 on four tokens and two experts. *)
Lemma C10_witness :
  well_formed 2 (toy 1 true true) ∧ well_shaped batch4 ∧
  normalised (softmax (toy 1 true true)) ∧
  ∃ l g' out counts route_prob_sum n_dropped,
    forward (toy 1 true true) batch4 0%nat = inr (l, g') ∧
    __call__ (toy 1 true true) batch4 0%nat
    = inr ((out, counts, route_prob_sum, n_dropped), g') ∧
    length route_prob_sum = 2%nat ∧
    sum_Qc route_prob_sum = Qc_of_nat 4.
Proof.
  split; [toy_side|]. split; [toy_side|]. split; [toy_side|].
  destruct (C10_route_prob_sum (toy 1 true true) batch4 0%nat 2 2 2)
    as (l & g' & out & counts & rps & nd & Hrun & Hcall & _ & Hlen & _ & Hsum);
    [toy_side..|].
  exists l, g', out, counts, rps, nd. split_and!; assumption.
Defined.

(** * Further properties of the router *)

Section Further.
Context `{TorchRandom} `{!TorchRandomLaws}.

(** ** What a call that returned has computed *)

(** The part of [forward_post] that needs no assumption on the router: it
    is read off a run that returned. *)
Lemma forward_inv (self : SwitchFeedForward) (x : Tensor3) (g g' : Generator) (l : Locals) :
  forward self x g = inr (l, g') →
  route_prob l = (λ row, softmax self (switch self row)) <$> rows x ∧
  torch_max (n_switches self) (route_prob l) = inr (route_prob_max l, routes l) ∧
  factor l = (if is_scale_prob self then route_prob_max l
              else (λ p, p / p) <$> route_prob_max l) ∧
  x_scaled l = scale_rows (rows x) (factor l) ∧
  indexes_routed l
  = (λ i, nonzero (torch_eq (routes l) i)) <$> seq 0 (n_switches self) ∧
  counts l = (λ idx, Qc_of_nat (length idx)) <$> indexes_routed l ∧
  shape (final_output l) = shape x.
Proof.
  unfold forward, forward_body, capacity_exact, view_2d. destruct (shape x) as [[seq_len bs] d_model].
  intros Hrun.
  apply bind_inr_inv in Hrun as (xs & g1 & Hview & Hrun).
  destruct (bool_decide (d_model = 0%nat)); [done|].
  injection Hview as <- <-.
  apply bind_inr_inv in Hrun as ([vals idxs] & g2 & Hmax & Hrun).
  unfold lift_exn in Hmax.
  destruct (torch_max _ _) as [e|[vals' idxs']] eqn:Htm; [done|].
  injection Hmax as <- <- <-.
  apply bind_inr_inv in Hrun as (cap & g3 & Hcap & Hrun).
  apply bind_inr_inv in Hrun as ([il dr] & g4 & Hdrop & Hrun).
  apply bind_inr_inv in Hrun as (ro & g5 & Hexp & Hrun).
  rewrite !range_of_nat in Hrun.
  destruct (match dr with [] => _ | _ :: _ => _ end) as [fo dr'] in Hrun.
  injection Hrun as <- <-. simpl.
  split_and!; try done.
  set (routed := (λ i, nonzero (torch_eq idxs' i)) <$> seq 0 (n_switches self)).
  assert (length routed = n_switches self) as Hrl.
  { subst routed. by rewrite length_fmap, length_seq. }
  rewrite <- Hrl.
  apply (fmap_lookup_total_seq (λ idx : list nat, Qc_of_nat (length idx))).
Qed.

Lemma call_inv (self : SwitchFeedForward) (x : Tensor3) (g g' : Generator)
    (r : Tensor3 * Tensor1 * Tensor1 * nat) :
  __call__ self x g = inr (r, g') →
  ∃ l, forward self x g = inr (l, g') ∧ r = returned self l.
Proof.
  unfold __call__. intros Hrun.
  apply bind_inr_inv in Hrun as (l & g1 & Hfwd & Hret).
  injection Hret as <- <-. by exists l.
Qed.

(** X1.  The statistics that a call returns for the load-balancing loss
    depend on the input and on the routing layer only: two routers with
    the same routing layer, softmax and number of experts return the same
    [counts] and the same summed routing probabilities, whatever their
    capacity factor, [drop_tokens], [is_scale_prob] and experts are and
    whatever state the generator is in. *)
Theorem statistics_ignore_dropping (self1 self2 : SwitchFeedForward) (x : Tensor3)
    (g1 g2 g1' g2' : Generator) (out1 out2 : Tensor3)
    (counts1 counts2 prob1 prob2 : Tensor1) (n_dropped1 n_dropped2 : nat) :
  switch self1 = switch self2 → softmax self1 = softmax self2 →
  n_switches self1 = n_switches self2 →
  __call__ self1 x g1 = inr ((out1, counts1, prob1, n_dropped1), g1') →
  __call__ self2 x g2 = inr ((out2, counts2, prob2, n_dropped2), g2') →
  counts1 = counts2 ∧ prob1 = prob2.
Proof.
  intros Hsw Hsm Hn Hrun1 Hrun2.
  apply call_inv in Hrun1 as (l1 & Hrun1 & Hret1).
  apply call_inv in Hrun2 as (l2 & Hrun2 & Hret2).
  unfold returned in *. simplify_eq.
  apply forward_inv in Hrun1 as (Hrp1 & Hmax1 & _ & _ & Hro1 & Hc1 & _).
  apply forward_inv in Hrun2 as (Hrp2 & Hmax2 & _ & _ & Hro2 & Hc2 & _).
  assert (route_prob l1 = route_prob l2) as Hrp
    by (by rewrite Hrp1, Hrp2, Hsw, Hsm).
  rewrite Hrp, Hn, Hmax2 in Hmax1. injection Hmax1 as Hv Hr.
  split; [|by rewrite Hrp, Hn].
  by rewrite Hc1, Hc2, Hro1, Hro2, Hr, Hn.
Qed.

(** ** Enough capacity *)

(** When every group fits, the loop that drops tokens changes nothing and
    draws nothing from the generator. *)
Lemma drop_loop_fits (capacity : Z) (todo : list nat) (indexes_list dropped : list (list nat))
    (g : Generator) :
  (∀ i, i ∈ todo → (Z.of_nat (length (indexes_list !!! i)) ≤ capacity)%Z) →
  drop_loop capacity todo indexes_list dropped g = inr ((indexes_list, dropped), g).
Proof.
  induction todo as [|i todo IH]; intros Hfit; [done|]. simpl.
  rewrite bool_decide_eq_true_2 by (apply Hfit; left).
  apply IH. intros j Hj. apply Hfit. by right.
Qed.

Lemma length_nonzero_le (mask : list bool) : (length (nonzero mask) ≤ length mask)%nat.
Proof.
  unfold nonzero. etrans; [apply length_filter|]. by rewrite length_seq.
Qed.

(** X2.  When the capacity is at least the number of tokens, which a
    capacity factor of at least the number of experts guarantees, a call
    with [drop_tokens] enabled is the call with [drop_tokens] disabled: the
    same result or the same error, and the same state of the generator
    afterwards. *)
Theorem ample_capacity_is_no_drop (self : SwitchFeedForward) (x : Tensor3) (g : Generator) :
  (Z.of_nat (length (rows x))
   ≤ int (capacity_factor self * Qc_of_nat (length (rows x))
          / Qc_of_nat (n_switches self)))%Z →
  forward self x g = forward (with_drop_tokens false self) x g ∧
  __call__ self x g = __call__ (with_drop_tokens false self) x g.
Proof.
  intros Hcap.
  assert (forward self x g = forward (with_drop_tokens false self) x g) as Hfwd.
  { unfold forward, forward_body, capacity_exact, view_2d. destruct (shape x) as [[seq_len bs] d_model].
    cbn [with_drop_tokens n_switches capacity_factor is_scale_prob drop_tokens
         experts switch softmax].
    destruct (bool_decide (d_model = 0%nat)); [done|].
    rewrite !bind_lift_inr.
    unfold torch_max.
    destruct (bool_decide (n_switches self = 0%nat)) eqn:Hn; [done|].
    rewrite !bind_lift_inr. rewrite !bind_mret.
    destruct (drop_tokens self); [|done].
    set (r := (λ row : list Qc, match row with
                                | [] => (0, 0%nat)
                                | v :: rest => row_max v 0 1 rest
                                end) <$> _).
    set (fac := if is_scale_prob self then r.*1 else (λ p, p / p) <$> r.*1).
    assert (length (scale_rows (rows x) fac) = length (rows x)) as Hlen.
    { apply length_scale_rows. subst fac r.
      destruct (is_scale_prob self); by rewrite !length_fmap. }
    rewrite Hlen.
    match goal with
    | |- context [drop_loop ?c ?t ?il ?d] =>
        assert (drop_loop c t il d g = inr ((il, d), g)) as Hdl
    end.
    { apply drop_loop_fits. intros i Hi.
      rewrite range_of_nat in *. apply elem_of_seq in Hi.
      erewrite list_lookup_total_correct;
        [|by rewrite list_lookup_fmap, lookup_seq_lt by lia].
      simpl. etrans; [|exact Hcap]. apply inj_le.
      etrans; [apply length_nonzero_le|].
      unfold torch_eq. subst r. by rewrite !length_fmap. }
    by rewrite (bind_inr _ _ _ _ _ Hdl). }
  split; [done|]. unfold __call__.
  unfold mbind, M_bind. rewrite <- Hfwd.
  by destruct (forward self x g) as [e|[l g']].
Qed.

Lemma capacity_factor_ample (cf : Qc) (tokens n : nat) :
  (0 < n)%nat → Qc_of_nat n ≤ cf →
  (Z.of_nat tokens ≤ int (cf * Qc_of_nat tokens / Qc_of_nat n))%Z.
Proof.
  intros Hn Hcf.
  assert (0 < Qc_of_nat n) as Hpos.
  { unfold Qc_of_nat. rewrite <- Z2Qc_inj_0.
    apply (proj1 (Z2Qc_inj_lt 0 (Z.of_nat n))). lia. }
  assert (0 ≤ cf) as Hcf0.
  { etrans; [|exact Hcf]. by apply Qclt_le_weak. }
  rewrite int_floor by by apply capacity_nonneg.
  rewrite <- (Qfloor_Z (Z.of_nat tokens)). apply Qfloor_resp_le.
  change (Qc_of_nat tokens ≤ cf * Qc_of_nat tokens / Qc_of_nat n).
  apply (Qcmult_lt_0_le_reg_r _ _ (Qc_of_nat n)); [done|].
  unfold Qcdiv. rewrite <- Qcmult_assoc, (Qcmult_comm (/ _)), Qcmult_inv_r
    by by apply not_eq_sym, Qclt_not_eq.
  rewrite Qcmult_1_r, (Qcmult_comm cf).
  apply Qcmult_le_mono_nonneg_l; [apply Qc_of_nat_nonneg|done].
Qed.

(** ** Scaling without [is_scale_prob] *)

Lemma sum_Qc_nonpos (row : list Qc) :
  Forall (λ v, v ≤ 0) row → sum_Qc row ≤ 0.
Proof.
  induction 1 as [|v row Hv Hrow IH]; [done|].
  rewrite sum_Qc_cons. replace 0 with (0 + 0) by ring.
  by apply Qcplus_le_compat.
Qed.

Lemma scale_rows_by_one (x : Tensor2) (ps : list Qc) :
  length ps = length x → Forall (λ p, p ≠ 0) ps →
  scale_rows x ((λ p, p / p) <$> ps) = x.
Proof.
  unfold scale_rows. revert ps.
  induction x as [|row x IH]; intros [|p ps] Hlen Hps; simplify_eq/=; [done|].
  apply Forall_cons in Hps as [Hp Hps]. f_equal; [|by apply IH].
  unfold Qcdiv. rewrite Qcmult_inv_r by done.
  rewrite <- (list_fmap_id row) at 2. apply list_fmap_ext.
  intros _ v _. simpl. ring.
Qed.

(** With a softmax whose rows sum to one every confidence is positive. *)
Lemma confidence_positive (self : SwitchFeedForward) (x : Tensor3) (l : Locals)
    (seq_len bs d_model : nat) :
  well_formed d_model self →
  shape x = (seq_len, bs, d_model) → well_shaped x →
  (0 < n_switches self)%nat → normalised (softmax self) →
  forward_post self x l →
  Forall (λ p, 0 < p) (route_prob_max l).
Proof.
  intros Hwf Hshape Hx Hn Hnorm Hp. apply Forall_lookup. intros t p Ht.
  assert (t < length (rows x))%nat as Hlt.
  { rewrite <- (fp_max_length _ _ _ _ Hp). by eapply lookup_lt_Some. }
  destruct (token_assigned _ _ _ _ _ _ _ Hwf Hshape Hx Hn Hp Hlt)
    as (i & _ & row & p' & Hrow & _ & Hp' & Hle).
  rewrite Ht in Hp'. injection Hp' as <-.
  apply Qcnot_le_lt. intros Hp0.
  assert (sum_Qc row = 1) as Hsum.
  { rewrite (fp_route_prob _ _ _ _ Hp), list_lookup_fmap in Hrow.
    destruct (rows x !! t) as [xrow|] eqn:Hxrow; simplify_eq/=.
    apply Hnorm. intros Hnil. apply (f_equal length) in Hnil.
    unfold well_shaped in Hx. rewrite Hshape in Hx. destruct Hx as [_ Hrows].
    rewrite (wf_switch _ _ Hwf) in Hnil;
      [simpl in Hnil; lia|by eapply (Forall_lookup_1 _ _ _ _ Hrows)]. }
  assert (sum_Qc row ≤ 0) as Hneg.
  { apply sum_Qc_nonpos. eapply Forall_impl; [exact Hle|].
    intros v Hv. simpl in Hv. by etrans. }
  rewrite Hsum in Hneg. by apply (Qclt_not_le 0 1).
Qed.

(** X3.  With [is_scale_prob] false and a softmax whose rows sum to one,
    the rows are multiplied by one: the experts are given the rows of the
    input as they are, and the output row of a dropped token is its input
    row. *)
Theorem unscaled_without_scale_prob (self : SwitchFeedForward) (x : Tensor3) (g : Generator)
    (seq_len bs d_model : nat) :
  well_formed d_model self →
  shape x = (seq_len, bs, d_model) → well_shaped x →
  (0 < d_model)%nat → (0 < n_switches self)%nat →
  is_scale_prob self = false → normalised (softmax self) →
  ∃ l g',
    forward self x g = inr (l, g') ∧
    __call__ self x g = inr (returned self l, g') ∧
    x_scaled l = rows x ∧
    ∀ t, t ∈ dropped l → rows (final_output l) !! t = rows x !! t.
Proof.
  intros Hwf Hshape Hx Hd Hn Hsp Hnorm.
  destruct (forward_spec self x g _ _ _ Hwf Hshape Hx Hd Hn) as (l & g' & Hrun & Hp).
  assert (x_scaled l = rows x) as Hxs.
  { rewrite (fp_x_scaled _ _ _ _ Hp), (fp_factor _ _ _ _ Hp), Hsp.
    apply scale_rows_by_one; [apply (fp_max_length _ _ _ _ Hp)|].
    eapply Forall_impl;
      [exact (confidence_positive _ _ _ _ _ _ Hwf Hshape Hx Hn Hnorm Hp)|].
    intros p Hpos. by apply not_eq_sym, Qclt_not_eq. }
  exists l, g'. split_and!; [done|by apply call_of_forward|done|].
  intros t Ht. rewrite <- Hxs. by apply (fp_dropped _ _ _ _ Hp).
Qed.

(** ** How many tokens are dropped *)

Lemma cut_lengths (capacity : Z) (idx kept dr : list nat) :
  cut capacity idx kept dr →
  length kept = (if bool_decide (Z.of_nat (length idx) ≤ capacity)%Z
                 then length idx else slice_bound capacity (length idx)) ∧
  (length kept + length dr)%nat = length idx.
Proof.
  intros Hcut. pose proof (cut_perm _ _ _ _ Hcut) as Hperm.
  apply Permutation_length in Hperm. rewrite length_app in Hperm.
  split; [|done]. unfold cut in Hcut. case_bool_decide.
  - by destruct Hcut as [-> _].
  - destruct Hcut as (perm & Hp & -> & _).
    assert (length (index_select idx perm) = length idx) as Hlen.
    { by rewrite length_index_select, Hp, length_seq. }
    unfold slice_to. rewrite length_take, Hlen. unfold slice_bound.
    case_bool_decide; lia.
Qed.

(** X4.  With [drop_tokens] enabled and a capacity factor that is not
    negative, an expert to which [k] tokens are routed processes
    [min(k, capacity)] of them, and the returned number of dropped tokens is
    the sum over the experts of the excess of [k] over the capacity. *)
Theorem dropped_is_the_excess (self : SwitchFeedForward) (x : Tensor3) (g : Generator)
    (seq_len bs d_model : nat) :
  well_formed d_model self →
  shape x = (seq_len, bs, d_model) → well_shaped x →
  (0 < d_model)%nat → (0 < n_switches self)%nat →
  drop_tokens self = true → 0 ≤ capacity_factor self →
  ∃ l g' out counts route_prob_sum n_dropped,
    forward self x g = inr (l, g') ∧
    __call__ self x g = inr ((out, counts, route_prob_sum, n_dropped), g') ∧
    Forall2 (λ routed idx,
               length idx = Nat.min (length routed) (Z.to_nat (capacity l)))
            (indexes_routed l) (indexes_list l) ∧
    n_dropped
    = sum_list ((λ routed, length routed - Z.to_nat (capacity l))%nat
                  <$> indexes_routed l).
Proof.
  intros Hwf Hshape Hx Hd Hn Hdrop Hcf.
  destruct (forward_spec self x g _ _ _ Hwf Hshape Hx Hd Hn) as (l & g' & Hrun & Hp).
  assert (0 ≤ capacity l)%Z as Hpos.
  { rewrite (fp_capacity _ _ _ _ Hp), <- (Qfloor_Z 0).
    rewrite int_floor by by apply capacity_nonneg.
    apply Qfloor_resp_le. by apply (capacity_nonneg _ _ _ Hcf). }
  destruct (fp_cut _ _ _ _ Hp) as (kd & Hil & Hdr & Hkd). rewrite Hdrop in Hkd.
  eexists l, g', _, _, _, _. split_and!; [done|by apply call_of_forward|..].
  - rewrite Hil. apply Forall2_fmap_r.
    eapply Forall2_impl; [exact Hkd|]. intros routed [kept dr] Hcut.
    apply cut_lengths in Hcut as [Hk _]. simpl in *. rewrite Hk.
    unfold slice_bound. repeat case_bool_decide; lia.
  - rewrite Hdr. clear -Hkd Hpos.
    induction Hkd as [|routed [kept dr] rs kd Hcut Hkd IH]; [done|].
    rewrite !fmap_cons. cbn [concat sum_list sum_list_with snd].
    rewrite length_app. f_equal; [|exact IH].
    apply cut_lengths in Hcut as [Hk Hsum]. simpl in *.
    unfold slice_bound in Hk. repeat case_bool_decide; lia.
Qed.

(** X5.  A capacity below zero is not treated as zero.  With
    [drop_tokens] enabled the slices [[:capacity]] and [[capacity:]] then
    count from the end: an expert to which [k] tokens are routed still
    processes [max(k + capacity, 0)] of them and drops the last
    [min(k, -capacity)] of the shuffled group. *)
Theorem negative_capacity_wraps (self : SwitchFeedForward) (x : Tensor3) (g : Generator)
    (seq_len bs d_model : nat) :
  well_formed d_model self →
  shape x = (seq_len, bs, d_model) → well_shaped x →
  (0 < d_model)%nat → (0 < n_switches self)%nat →
  drop_tokens self = true →
  (int (capacity_factor self * Qc_of_nat (length (rows x))
        / Qc_of_nat (n_switches self)) < 0)%Z →
  ∃ l g' out counts route_prob_sum n_dropped,
    forward self x g = inr (l, g') ∧
    __call__ self x g = inr ((out, counts, route_prob_sum, n_dropped), g') ∧
    (capacity l < 0)%Z ∧
    Forall2 (λ routed idx,
               length idx = Z.to_nat (Z.of_nat (length routed) + capacity l))
            (indexes_routed l) (indexes_list l) ∧
    n_dropped
    = sum_list ((λ routed, Nat.min (length routed) (Z.to_nat (- capacity l)))
                  <$> indexes_routed l).
Proof.
  intros Hwf Hshape Hx Hd Hn Hdrop Hneg.
  destruct (forward_spec self x g _ _ _ Hwf Hshape Hx Hd Hn) as (l & g' & Hrun & Hp).
  rewrite <- (fp_capacity _ _ _ _ Hp) in Hneg.
  destruct (fp_cut _ _ _ _ Hp) as (kd & Hil & Hdr & Hkd). rewrite Hdrop in Hkd.
  eexists l, g', _, _, _, _. split_and!; [done|by apply call_of_forward|done|..].
  - rewrite Hil. apply Forall2_fmap_r.
    eapply Forall2_impl; [exact Hkd|]. intros routed [kept dr] Hcut.
    apply cut_lengths in Hcut as [Hk _]. simpl in *. rewrite Hk.
    unfold slice_bound. repeat case_bool_decide; lia.
  - rewrite Hdr. clear -Hkd Hneg.
    induction Hkd as [|routed [kept dr] rs kd Hcut Hkd IH]; [done|].
    rewrite !fmap_cons. cbn [concat sum_list sum_list_with snd].
    rewrite length_app. f_equal; [|exact IH].
    apply cut_lengths in Hcut as [Hk Hsum]. simpl in *.
    unfold slice_bound in Hk. repeat case_bool_decide; lia.
Qed.

(** ** Position-wise experts *)

(** X6.  With experts that are position-wise and have no dropout, grouping
    the tokens by expert, evaluating each expert on its group and
    scattering the rows back is a map over the tokens: the output row of a
    token that is not dropped is its expert applied to its scaled row, and
    the output row of a dropped token is its scaled row. *)
Theorem routing_is_a_map (self : SwitchFeedForward) (x : Tensor3) (g : Generator)
    (seq_len bs d_model : nat) (fs : nat → list Qc → list Qc) :
  well_formed d_model self →
  shape x = (seq_len, bs, d_model) → well_shaped x →
  (0 < d_model)%nat → (0 < n_switches self)%nat →
  (∀ i expert, experts self !! i = Some expert → position_wise expert (fs i)) →
  ∃ l g',
    forward self x g = inr (l, g') ∧
    __call__ self x g = inr (returned self l, g') ∧
    ∀ t row, x_scaled l !! t = Some row →
      ∃ i, routes l !! t = Some i ∧
        rows (final_output l) !! t
        = Some (if bool_decide (t ∈ dropped l) then row else fs i row).
Proof.
  intros Hwf Hshape Hx Hd Hn Hpw.
  destruct (forward_spec self x g _ _ _ Hwf Hshape Hx Hd Hn) as (l & g' & Hrun & Hp).
  exists l, g'. split_and!; [done|by apply call_of_forward|].
  intros t row Hrow.
  assert (t < length (rows x))%nat as Ht.
  { rewrite <- (length_x_scaled _ _ _ Hp). by eapply lookup_lt_Some. }
  destruct (token_output _ _ _ _ Hp Ht) as (i & Hi & [[Hproc Hnot]|[[Hin Hpass] _]]).
  - exists i. split; [done|]. rewrite bool_decide_eq_false_2 by done.
    destruct Hproc as (idx & k & out & orow & Hidx & Hk & _ & _ & Hev & Hout & Hfin).
    destruct Hev as (expert & ge & He & ->).
    rewrite (Hpw _ _ He) in Hout. simpl in Hout.
    rewrite list_lookup_fmap, (lookup_index_select _ _ _ _ Hk) in Hout
      by (rewrite (length_x_scaled _ _ _ Hp); lia).
    rewrite Hrow in Hout. simpl in Hout. by rewrite Hfin, <- Hout.
  - exists i. split; [done|]. rewrite bool_decide_eq_true_2 by done.
    by rewrite Hpass.
Qed.

(** ** The layer and the stack *)

(** What a caller of the router can rely on. *)
Lemma call_summary (self : SwitchFeedForward) (x : Tensor3) (g : Generator)
    (seq_len bs d_model : nat) :
  well_formed d_model self →
  shape x = (seq_len, bs, d_model) → well_shaped x →
  (0 < d_model)%nat → (0 < n_switches self)%nat →
  ∃ out counts route_prob n_dropped g',
    __call__ self x g = inr ((out, counts, route_prob, n_dropped), g') ∧
    shape out = shape x ∧ well_shaped out ∧
    length counts = n_switches self ∧
    sum_Qc counts = Qc_of_nat (length (rows x)) ∧
    length route_prob = n_switches self ∧
    (n_dropped ≤ length (rows x))%nat ∧
    (drop_tokens self = false → n_dropped = 0%nat).
Proof.
  intros Hwf Hshape Hx Hd Hn.
  destruct (forward_spec self x g _ _ _ Hwf Hshape Hx Hd Hn) as (l & g' & Hrun & Hp).
  eexists _, _, _, _, g'. split_and!; [by apply call_of_forward|apply Hp..| | | | |].
  - by rewrite (fp_counts _ _ _ _ Hp), (fp_routed _ _ _ _ Hp), !length_fmap, length_seq.
  - rewrite (fp_counts _ _ _ _ Hp).
    replace ((λ idx, Qc_of_nat (length idx)) <$> indexes_routed l)
      with (Qc_of_nat <$> (length <$> indexes_routed l))
      by (by rewrite <- list_fmap_compose).
    rewrite sum_Qc_of_nat, <- length_concat_sum. f_equal.
    rewrite (fp_routed _ _ _ _ Hp), concat_routed_all by apply (fp_routes_lt _ _ _ _ Hp).
    by rewrite length_seq, (fp_routes_length _ _ _ _ Hp).
  - apply length_sum_0. rewrite (fp_route_prob _ _ _ _ Hp). apply Forall_fmap.
    unfold well_shaped in Hx. rewrite Hshape in Hx. destruct Hx as [_ Hrows].
    eapply Forall_impl; [exact Hrows|]. intros row Hrow. simpl.
    rewrite (wf_softmax _ _ Hwf). by apply (wf_switch _ _ Hwf).
  - pose proof (kept_and_dropped _ _ _ Hp) as Hall.
    apply Permutation_length in Hall. rewrite length_app, length_seq in Hall. lia.
  - intros Hdrop. destruct (fp_cut _ _ _ _ Hp) as (kd & _ & -> & Hkd).
    rewrite Hdrop in Hkd. clear -Hkd.
    induction Hkd as [|idx p routed kd Hcut Hkd IH]; [done|].
    unfold cut_if in Hcut. subst p. by rewrite fmap_cons.
Qed.

Lemma call_without_experts (self : SwitchFeedForward) (x : Tensor3) (g : Generator) :
  n_switches self = 0%nat → raises (__call__ self x) g.
Proof.
  intros Hzero. unfold raises, __call__.
  assert (∃ e, forward self x g = inl e) as [e He].
  { unfold forward, forward_body, capacity_exact, view_2d. destruct (shape x) as [[seq_len bs] d_model].
    destruct (decide (d_model = 0%nat)) as [Hd|Hd].
    - rewrite (bool_decide_eq_true_2 (d_model = 0%nat)) by done.
      by exists RuntimeError.
    - rewrite (bool_decide_eq_false_2 (d_model = 0%nat)) by done.
      rewrite bind_lift_inr. unfold torch_max. rewrite Hzero.
      rewrite (bool_decide_eq_true_2 (0 = 0)%nat) by done.
      by exists IndexError. }
  exists e. by apply bind_inl.
Qed.

Lemma add_well_shaped (x y : Tensor3) :
  well_shaped x → well_shaped y → shape y = shape x →
  well_shaped (add x y) ∧ shape (add x y) = shape x.
Proof.
  unfold well_shaped, add. simpl. intros Hx Hy Hs. rewrite Hs in Hy.
  destruct (shape x) as [[seq_len bs] d_model].
  destruct Hx as [Hxl Hxr], Hy as [Hyl Hyr]. split; [|done]. split.
  - rewrite length_zip_with. lia.
  - clear Hxl Hyl. revert Hyr. generalize (rows y).
    induction Hxr as [|r rs Hr Hrs IH]; intros [|r' rs'] Hy; simpl; try done.
    apply Forall_cons in Hy as [Hr' Hy].
    constructor; [rewrite length_zip_with; lia|by apply IH].
Qed.

(** What a caller of the layer can rely on. *)
Lemma layer_summary (self : SwitchTransformerLayer.t)
    (x mask : Tensor3) (g : Generator) (seq_len bs d_model : nat) :
  SwitchTransformerLayer.ok d_model self →
  shape x = (seq_len, bs, d_model) → well_shaped x →
  (0 < d_model)%nat →
  (0 < n_switches (SwitchTransformerLayer.feed_forward self))%nat →
  ∃ out counts route_prob n_dropped g',
    SwitchTransformerLayer.__call__ self x mask g
    = inr ((out, counts, route_prob, n_dropped), g') ∧
    shape out = shape x ∧ well_shaped out ∧
    length counts = n_switches (SwitchTransformerLayer.feed_forward self) ∧
    sum_Qc counts = Qc_of_nat (seq_len * bs) ∧
    length route_prob = n_switches (SwitchTransformerLayer.feed_forward self) ∧
    (n_dropped ≤ seq_len * bs)%nat ∧
    (drop_tokens (SwitchTransformerLayer.feed_forward self) = false →
     n_dropped = 0%nat).
Proof.
  intros Hok Hshape Hx Hd Hn. unfold SwitchTransformerLayer.__call__.
  destruct (SwitchTransformerLayer.ok_norm_self_attn _ _ Hok x Hx) as [Hz Hzs].
  rewrite bind_draw.
  set (a := SwitchTransformerLayer.attn self _ _ _ mask g).
  destruct (SwitchTransformerLayer.ok_attn _ _ Hok _
              (SwitchTransformerLayer.norm_self_attn self x)
              (SwitchTransformerLayer.norm_self_attn self x) mask g Hz)
    as [Ha Has].
  fold a in Ha, Has. rewrite bind_draw.
  set (d1 := SwitchTransformerLayer.dropout self a.1 a.2).
  destruct (SwitchTransformerLayer.ok_dropout _ _ Hok a.1 a.2 Ha) as [Hd1 Hd1s].
  fold d1 in Hd1, Hd1s.
  destruct (add_well_shaped x d1.1) as [Hx1 Hx1s]; [done|done|congruence|].
  destruct (SwitchTransformerLayer.ok_norm_ff _ _ Hok _ Hx1) as [Hz2 Hz2s].
  destruct (call_summary (SwitchTransformerLayer.feed_forward self)
              (SwitchTransformerLayer.norm_ff self (add x d1.1)) d1.2
              seq_len bs d_model)
    as (ff & counts & rp & nd & g1 & Hcall & Hffs & Hff & Hcl & Hcs & Hrl & Hnd & Hno);
    [apply Hok|congruence|done..|].
  erewrite bind_inr by exact Hcall. cbv beta iota. rewrite bind_draw.
  set (d2 := SwitchTransformerLayer.dropout self ff g1).
  destruct (SwitchTransformerLayer.ok_dropout _ _ Hok ff g1 Hff) as [Hd2 Hd2s].
  fold d2 in Hd2, Hd2s.
  destruct (add_well_shaped (add x d1.1) d2.1) as [Hx2 Hx2s];
    [done|done|congruence|].
  assert (length (rows (SwitchTransformerLayer.norm_ff self (add x d1.1)))
          = (seq_len * bs)%nat) as Hlen.
  { unfold well_shaped in Hz2. rewrite Hz2s, Hx1s, Hshape in Hz2. apply Hz2. }
  rewrite Hlen in *.
  eexists _, counts, rp, nd, _. split_and!; [reflexivity|congruence|done..].
Qed.

(** X7.  A layer around a well-formed router returns, for every
    well-shaped input and mask, an output of the shape of the input
    together with the statistics of its router: one count per expert, the
    counts summing to the number of tokens, one summed probability per
    expert, and a number of dropped tokens that is at most the number of
    tokens and is zero when [drop_tokens] is disabled. *)
Theorem layer_returns_router_statistics (self : SwitchTransformerLayer.t)
    (x mask : Tensor3) (g : Generator) (seq_len bs d_model : nat) :
  SwitchTransformerLayer.ok d_model self →
  shape x = (seq_len, bs, d_model) → well_shaped x →
  (0 < d_model)%nat →
  (0 < n_switches (SwitchTransformerLayer.feed_forward self))%nat →
  ∃ out counts route_prob n_dropped g',
    SwitchTransformerLayer.__call__ self x mask g
    = inr ((out, counts, route_prob, n_dropped), g') ∧
    shape out = shape x ∧ well_shaped out ∧
    length counts = n_switches (SwitchTransformerLayer.feed_forward self) ∧
    sum_Qc counts = Qc_of_nat (seq_len * bs) ∧
    length route_prob = n_switches (SwitchTransformerLayer.feed_forward self) ∧
    (n_dropped ≤ seq_len * bs)%nat ∧
    (drop_tokens (SwitchTransformerLayer.feed_forward self) = false →
     n_dropped = 0%nat).
Proof.
  intros Hok Hshape Hx Hd Hn.
  by apply (layer_summary self x mask g seq_len bs d_model).
Qed.

(** X8.  A layer whose router has no experts raises at every call. *)
Theorem layer_without_experts_raises (self : SwitchTransformerLayer.t)
    (x mask : Tensor3) (g : Generator) :
  n_switches (SwitchTransformerLayer.feed_forward self) = 0%nat →
  raises (SwitchTransformerLayer.__call__ self x mask) g.
Proof.
  intros Hzero. unfold raises, SwitchTransformerLayer.__call__.
  rewrite !bind_draw.
  match goal with
  | |- context [__call__ ?ff ?z ≫= _] =>
      match goal with
      | |- ∃ e, _ ?g1 = _ =>
          destruct (call_without_experts ff z g1 Hzero) as [e He]
      end
  end.
  exists e. by apply bind_inl.
Qed.

Lemma torch_stack_same_size (ts : list Tensor1) (n : nat) :
  ts ≠ [] → Forall (λ t, length t = n) ts → torch_stack ts = inr ts.
Proof.
  intros Hne Hts. destruct Hts as [|t ts Ht Hts]; [done|]. simpl.
  replace (forallb _ ts) with true; [done|].
  symmetry. apply forallb_forall. intros u Hu.
  apply bool_decide_eq_true_2.
  rewrite Forall_forall in Hts. rewrite Ht. apply Hts. by apply list_elem_of_In.
Qed.

(** The loop over the layers appends one entry per layer to each list. *)
Lemma run_layers_spec (mask : Tensor3) (seq_len bs d_model n : nat)
    (todo : list SwitchTransformerLayer.t) :
  (0 < d_model)%nat → (0 < n)%nat →
  Forall (SwitchTransformerLayer.ok d_model) todo →
  Forall (λ layer, n_switches (SwitchTransformerLayer.feed_forward layer) = n) todo →
  ∀ (x : Tensor3) (counts route_prob : list Tensor1) (n_dropped : list nat)
    (g : Generator),
  shape x = (seq_len, bs, d_model) → well_shaped x →
  ∃ x' cs ps ns g',
    SwitchTransformer.run_layers todo x mask counts route_prob n_dropped g
    = inr ((x', counts ++ cs, route_prob ++ ps, n_dropped ++ ns), g') ∧
    shape x' = (seq_len, bs, d_model) ∧ well_shaped x' ∧
    length cs = length todo ∧ length ps = length todo ∧
    length ns = length todo ∧
    Forall (λ c, length c = n ∧ sum_Qc c = Qc_of_nat (seq_len * bs)) cs ∧
    Forall (λ p, length p = n) ps ∧
    Forall (λ k, (k ≤ seq_len * bs)%nat) ns ∧
    Forall2 (λ layer k,
               drop_tokens (SwitchTransformerLayer.feed_forward layer) = false →
               k = 0%nat) todo ns.
Proof.
  intros Hd Hn Hok Hsame.
  induction Hok as [|layer todo Hlayer Hok IH];
    intros x counts route_prob n_dropped g Hshape Hx.
  - exists x, [], [], [], g. rewrite !app_nil_r. by split_and!.
  - apply Forall_cons in Hsame as [Hln Hsame]. simpl.
    destruct (layer_summary layer x mask g seq_len bs d_model)
      as (x1 & f & p & nd & g1 & Hcall & Hs1 & Hx1 & Hfl & Hfs & Hpl & Hnd & Hno);
      [done|done|done|done|lia|].
    erewrite bind_inr by exact Hcall. cbv beta iota.
    destruct (IH Hsame x1 (counts ++ [f]) (route_prob ++ [p]) (n_dropped ++ [nd]) g1)
      as (x' & cs & ps & ns & g' & Hrun & Hs' & Hx' & Hcl & Hpl' & Hnl & Hcs & Hps
          & Hns & Hzero);
      [congruence|done|].
    exists x', (f :: cs), (p :: ps), (nd :: ns), g'.
    rewrite Hrun, <- !app_assoc. simpl.
    split_and!; try done; try lia.
    + constructor; [|done]. split; congruence.
    + constructor; [congruence|done].
    + by constructor.
    + by constructor.
Qed.

(** X9.  A stack of at least one layer, all with well-formed routers of
    the same number of experts, returns an output of the shape of the
    input and the statistics of its layers in the order of the layers: a
    row of counts per layer, each summing to the number of tokens, a row of
    summed probabilities per layer, and a number of dropped tokens per
    layer, each at most the number of tokens. *)
Theorem stack_statistics_per_layer (self : SwitchTransformer.t) (x mask : Tensor3)
    (g : Generator) (seq_len bs d_model n : nat) :
  SwitchTransformer.layers self ≠ [] →
  Forall (SwitchTransformerLayer.ok d_model) (SwitchTransformer.layers self) →
  Forall (λ layer, n_switches (SwitchTransformerLayer.feed_forward layer) = n)
         (SwitchTransformer.layers self) →
  keeps_shape (SwitchTransformer.norm self) →
  shape x = (seq_len, bs, d_model) → well_shaped x →
  (0 < d_model)%nat → (0 < n)%nat →
  ∃ out counts route_prob n_dropped g',
    SwitchTransformer.__call__ self x mask g
    = inr ((out, counts, route_prob, n_dropped), g') ∧
    shape out = shape x ∧ well_shaped out ∧
    length counts = length (SwitchTransformer.layers self) ∧
    length route_prob = length (SwitchTransformer.layers self) ∧
    length n_dropped = length (SwitchTransformer.layers self) ∧
    Forall (λ c, length c = n ∧ sum_Qc c = Qc_of_nat (seq_len * bs)) counts ∧
    Forall (λ p, length p = n) route_prob ∧
    Forall (λ k, (k ≤ seq_len * bs)%nat) n_dropped.
Proof.
  intros Hne Hok Hsame Hnorm Hshape Hx Hd Hn.
  destruct (run_layers_spec mask seq_len bs d_model n _ Hd Hn Hok Hsame
              x [] [] [] g Hshape Hx)
    as (x' & cs & ps & ns & g' & Hrun & Hs' & Hx' & Hcl & Hpl & Hnl & Hcs & Hps
        & Hns & _).
  simpl in Hrun. unfold SwitchTransformer.__call__.
  erewrite bind_inr by exact Hrun. cbv beta iota zeta.
  assert (cs ≠ []) as Hcne.
  { intros ->. simpl in Hcl. by destruct (SwitchTransformer.layers self). }
  assert (ps ≠ []) as Hpne.
  { intros ->. simpl in Hpl. by destruct (SwitchTransformer.layers self). }
  rewrite (torch_stack_same_size cs n), bind_lift_inr; [|done|].
  2: { eapply Forall_impl; [exact Hcs|]. by intros c [? _]. }
  rewrite (torch_stack_same_size ps n), bind_lift_inr by done.
  destruct (Hnorm x' Hx') as [Hout Houts].
  eexists _, cs, ps, ns, g'. split_and!; [reflexivity|congruence|done..].
Qed.

(** X10.  A stack without layers raises at every call: there is nothing
    for [torch.stack] to stack. *)
Theorem stack_without_layers_raises (self : SwitchTransformer.t) (x mask : Tensor3)
    (g : Generator) :
  SwitchTransformer.layers self = [] →
  SwitchTransformer.__call__ self x mask g = inl RuntimeError.
Proof. intros Hnone. unfold SwitchTransformer.__call__. by rewrite Hnone. Qed.

(** X11.  When [drop_tokens] is disabled in every layer of a stack, the
    stack reports zero dropped tokens for every layer. *)
Theorem stack_without_dropping (self : SwitchTransformer.t) (x mask : Tensor3)
    (g : Generator) (seq_len bs d_model n : nat) :
  SwitchTransformer.layers self ≠ [] →
  Forall (SwitchTransformerLayer.ok d_model) (SwitchTransformer.layers self) →
  Forall (λ layer, n_switches (SwitchTransformerLayer.feed_forward layer) = n)
         (SwitchTransformer.layers self) →
  Forall (λ layer, drop_tokens (SwitchTransformerLayer.feed_forward layer) = false)
         (SwitchTransformer.layers self) →
  shape x = (seq_len, bs, d_model) → well_shaped x →
  (0 < d_model)%nat → (0 < n)%nat →
  ∃ out counts route_prob g',
    SwitchTransformer.__call__ self x mask g
    = inr ((out, counts, route_prob,
            replicate (length (SwitchTransformer.layers self)) 0%nat), g').
Proof.
  intros Hne Hok Hsame Hoff Hshape Hx Hd Hn.
  destruct (run_layers_spec mask seq_len bs d_model n _ Hd Hn Hok Hsame
              x [] [] [] g Hshape Hx)
    as (x' & cs & ps & ns & g' & Hrun & _ & _ & Hcl & Hpl & _ & Hcs & Hps & _ & Hzero).
  simpl in Hrun. unfold SwitchTransformer.__call__.
  erewrite bind_inr by exact Hrun. cbv beta iota zeta.
  assert (cs ≠ []) as Hcne.
  { intros ->. simpl in Hcl. by destruct (SwitchTransformer.layers self). }
  assert (ps ≠ []) as Hpne.
  { intros ->. simpl in Hpl. by destruct (SwitchTransformer.layers self). }
  rewrite (torch_stack_same_size cs n), bind_lift_inr; [|done|].
  2: { eapply Forall_impl; [exact Hcs|]. by intros c [? _]. }
  rewrite (torch_stack_same_size ps n), bind_lift_inr by done.
  assert (ns = replicate (length (SwitchTransformer.layers self)) 0%nat) as ->.
  { clear -Hzero Hoff.
    induction Hzero as [|layer k todo ns Hk Hzero IH]; [done|].
    apply Forall_cons in Hoff as [Hl Hoff]. simpl.
    by rewrite (Hk Hl), (IH Hoff). }
  by eexists _, _, _, _.
Qed.

End Further.

(** * The further properties on the concrete router, layer and stack *)

Lemma toy_layer_ok (router : @SwitchFeedForward rotating) :
  well_formed 2 router → SwitchTransformerLayer.ok 2 (toy_layer router).
Proof. intros Hwf. by constructor. Qed.

Lemma toy_position_wise (cf : Qc) (dt sp : bool) (i : nat) (expert : FeedForward) :
  experts (toy cf dt sp) !! i = Some expert → position_wise expert (toy_maps i).
Proof. destruct i as [|[|i]]; simpl; intros [= <-]; by intros t g. Qed.

(** X1 on the concrete router with and without dropping. *)
Lemma statistics_ignore_dropping_witness :
  ∃ out1 counts1 prob1 n1 g1 out2 counts2 prob2 n2 g2,
    __call__ (toy 1 true true) batch4 0%nat = inr ((out1, counts1, prob1, n1), g1) ∧
    __call__ (toy 2 false false) batch4 5%nat = inr ((out2, counts2, prob2, n2), g2) ∧
    counts1 = counts2 ∧ prob1 = prob2.
Proof.
  destruct (__call__ (toy 1 true true) batch4 0%nat)
    as [e|[[[[out1 counts1] prob1] n1] g1]] eqn:Hrun1;
    [vm_compute in Hrun1; discriminate|].
  destruct (__call__ (toy 2 false false) batch4 5%nat)
    as [e|[[[[out2 counts2] prob2] n2] g2]] eqn:Hrun2;
    [vm_compute in Hrun2; discriminate|].
  exists out1, counts1, prob1, n1, g1, out2, counts2, prob2, n2, g2.
  split; [reflexivity|]. split; [reflexivity|].
  exact (statistics_ignore_dropping (toy 1 true true) (toy 2 false false) batch4
           0%nat 5%nat g1 g2 out1 out2 counts1 counts2 prob1 prob2 n1 n2
           eq_refl eq_refl eq_refl Hrun1 Hrun2).
Defined.

(** X2 on four tokens with a capacity factor of two. *)
Lemma ample_capacity_is_no_drop_witness :
  (Z.of_nat (length (rows batch4))
   ≤ int (capacity_factor (toy 2 true true) * Qc_of_nat (length (rows batch4))
          / Qc_of_nat (n_switches (toy 2 true true))))%Z ∧
  forward (toy 2 true true) batch4 0%nat
  = forward (with_drop_tokens false (toy 2 true true)) batch4 0%nat.
Proof.
  split; [toy_side|].
  apply (ample_capacity_is_no_drop (toy 2 true true) batch4 0%nat). toy_side.
Defined.

(** X3 on four tokens. *)
Lemma unscaled_without_scale_prob_witness :
  well_formed 2 (toy 1 true false) ∧ well_shaped batch4 ∧
  normalised (softmax (toy 1 true false)) ∧
  ∃ l g', forward (toy 1 true false) batch4 0%nat = inr (l, g') ∧
          x_scaled l = rows batch4.
Proof.
  split; [toy_side|]. split; [toy_side|]. split; [toy_side|].
  destruct (unscaled_without_scale_prob (toy 1 true false) batch4 0%nat 2 2 2)
    as (l & g' & Hrun & _ & Hxs & _); [toy_side..|].
  exists l, g'. split; assumption.
Defined.

(** X4 on four tokens: three and one tokens are routed, the capacity is
    two. *)
Lemma dropped_is_the_excess_witness :
  well_formed 2 (toy 1 true true) ∧ well_shaped batch4 ∧
  drop_tokens (toy 1 true true) = true ∧ 0 ≤ capacity_factor (toy 1 true true) ∧
  ∃ l g' out counts route_prob_sum n_dropped,
    forward (toy 1 true true) batch4 0%nat = inr (l, g') ∧
    __call__ (toy 1 true true) batch4 0%nat
    = inr ((out, counts, route_prob_sum, n_dropped), g') ∧
    n_dropped
    = sum_list ((λ routed, length routed - Z.to_nat (capacity l))%nat
                  <$> indexes_routed l).
Proof.
  split; [toy_side|]. split; [toy_side|]. split; [toy_side|]. split; [toy_side|].
  destruct (dropped_is_the_excess (toy 1 true true) batch4 0%nat 2 2 2)
    as (l & g' & out & counts & rps & nd & Hrun & Hcall & _ & Hnd); [toy_side..|].
  exists l, g', out, counts, rps, nd. split_and!; assumption.
Defined.

(** X5 on four tokens with a capacity factor of minus one half. *)
Lemma negative_capacity_wraps_witness :
  well_formed 2 (toy (Q2Qc (-1 # 2)) true true) ∧ well_shaped batch4 ∧
  (int (Q2Qc (-1 # 2) * Qc_of_nat 4 / Qc_of_nat 2) < 0)%Z ∧
  ∃ l g',
    forward (toy (Q2Qc (-1 # 2)) true true) batch4 0%nat = inr (l, g') ∧
    (capacity l < 0)%Z ∧
    Forall2 (λ routed idx,
               length idx = Z.to_nat (Z.of_nat (length routed) + capacity l))
            (indexes_routed l) (indexes_list l).
Proof.
  split; [toy_side|]. split; [toy_side|]. split; [toy_side|].
  destruct (negative_capacity_wraps (toy (Q2Qc (-1 # 2)) true true) batch4 0%nat 2 2 2)
    as (l & g' & out & counts & rps & nd & Hrun & _ & Hneg & Hlen & _); [toy_side..|].
  exists l, g'. split_and!; assumption.
Defined.

(** X6 on four tokens: the first expert doubles and the second negates. *)
Lemma routing_is_a_map_witness :
  well_formed 2 (toy 1 true true) ∧ well_shaped batch4 ∧
  ∃ l g',
    forward (toy 1 true true) batch4 0%nat = inr (l, g') ∧
    ∀ t row, x_scaled l !! t = Some row →
      ∃ i, routes l !! t = Some i ∧
        rows (final_output l) !! t
        = Some (if bool_decide (t ∈ dropped l) then row else toy_maps i row).
Proof.
  split; [toy_side|]. split; [toy_side|].
  destruct (routing_is_a_map (toy 1 true true) batch4 0%nat 2 2 2 toy_maps)
    as (l & g' & Hrun & _ & Hmap);
    [toy_side..|apply toy_position_wise|].
  exists l, g'. split; assumption.
Defined.

(** X7 on a layer around the concrete router. *)
Lemma layer_returns_router_statistics_witness :
  SwitchTransformerLayer.ok 2 (toy_layer (toy 1 true true)) ∧ well_shaped batch4 ∧
  ∃ out counts route_prob n_dropped g',
    SwitchTransformerLayer.__call__ (toy_layer (toy 1 true true)) batch4 batch4 0%nat
    = inr ((out, counts, route_prob, n_dropped), g') ∧
    shape out = shape batch4 ∧ sum_Qc counts = Qc_of_nat (2 * 2) ∧
    (n_dropped ≤ 2 * 2)%nat.
Proof.
  split; [apply toy_layer_ok; toy_side|]. split; [toy_side|].
  destruct (layer_returns_router_statistics (toy_layer (toy 1 true true))
              batch4 batch4 0%nat 2 2 2)
    as (out & counts & rp & nd & g' & Hcall & Hshape & _ & _ & Hsum & _ & Hnd & _);
    [apply toy_layer_ok; toy_side|toy_side..|].
  exists out, counts, rp, nd, g'. split_and!; assumption.
Defined.

(** X8 on a layer around the router without experts. *)
Lemma layer_without_experts_raises_witness :
  n_switches (SwitchTransformerLayer.feed_forward (toy_layer toy_without_experts))
  = 0%nat ∧
  raises (SwitchTransformerLayer.__call__ (toy_layer toy_without_experts)
            batch4 batch4) 0%nat.
Proof.
  split; [reflexivity|].
  apply (layer_without_experts_raises (toy_layer toy_without_experts)). reflexivity.
Defined.

(** X9 on a stack of two layers. *)
Lemma stack_statistics_per_layer_witness :
  SwitchTransformer.layers (toy_stack (toy 1 true true) 2) ≠ [] ∧
  well_shaped batch4 ∧
  ∃ out counts route_prob n_dropped g',
    SwitchTransformer.__call__ (toy_stack (toy 1 true true) 2) batch4 batch4 0%nat
    = inr ((out, counts, route_prob, n_dropped), g') ∧
    shape out = shape batch4 ∧ length counts = 2%nat ∧ length n_dropped = 2%nat ∧
    Forall (λ c, length c = 2%nat ∧ sum_Qc c = Qc_of_nat (2 * 2)) counts.
Proof.
  split; [done|]. split; [toy_side|].
  destruct (stack_statistics_per_layer (toy_stack (toy 1 true true) 2)
              batch4 batch4 0%nat 2 2 2 2)
    as (out & counts & rp & nd & g' & Hcall & Hshape & _ & Hcl & _ & Hnl & Hcs & _);
    [done
    |apply Forall_replicate, toy_layer_ok; toy_side
    |by apply Forall_replicate
    |by intros x
    |toy_side..|].
  exists out, counts, rp, nd, g'. split_and!; assumption.
Defined.

(** X10 on a stack of no layers. *)
Lemma stack_without_layers_raises_witness :
  SwitchTransformer.layers (toy_stack (toy 1 true true) 0) = [] ∧
  SwitchTransformer.__call__ (toy_stack (toy 1 true true) 0) batch4 batch4 0%nat
  = inl RuntimeError.
Proof.
  split; [reflexivity|].
  apply (stack_without_layers_raises (toy_stack (toy 1 true true) 0)). reflexivity.
Defined.

(** X11 on a stack of three layers without dropping. *)
Lemma stack_without_dropping_witness :
  SwitchTransformer.layers (toy_stack (toy 1 false true) 3) ≠ [] ∧
  well_shaped batch4 ∧
  ∃ out counts route_prob g',
    SwitchTransformer.__call__ (toy_stack (toy 1 false true) 3) batch4 batch4 0%nat
    = inr ((out, counts, route_prob, [0; 0; 0]%nat), g').
Proof.
  split; [done|]. split; [toy_side|].
  apply (stack_without_dropping (toy_stack (toy 1 false true) 3)
           batch4 batch4 0%nat 2 2 2 2);
    [done
    |apply Forall_replicate, toy_layer_ok; toy_side
    |by apply Forall_replicate
    |by apply Forall_replicate
    |toy_side..].
Defined.

(** X12 on the concrete constructors. *)
Lemma init_well_formed_witness :
  __init__ 1 true true 2 2 8 (Q2Qc (1 # 10)) 0%nat = inr (toy 1 true true, 3%nat) ∧
  well_formed 2 (toy 1 true true) ∧ n_switches (toy 1 true true) = Z.to_nat 2.
Proof.
  split; [reflexivity|].
  destruct (@init_well_formed rotating toy_collaborators toy_collaborator_laws
              1 true true 2 2 8 (Q2Qc (1 # 10)) 0%nat 3%nat (toy 1 true true))
    as (Hwf & Hn & _); [reflexivity|].
  split; assumption.
Defined.
